(** * pyspnego: the SPNEGO negotiation proxy and the context factory

    A shallow embedding of [spnego/negotiate.py] (class [NegotiateProxy]) and
    of [spnego/auth.py] ([_new_context]), followed by the properties of the
    specification that concern them.

    Python objects are mutable and an exception leaves the mutations made
    before it in place, so the methods of [NegotiateProxy] are written in a
    state-and-exception monad whose state survives a raise.  The sub-contexts
    (GSSAPIProxy, NTLMProxy), the wire codec and the enumerations live in
    modules that are not part of the embedded sources; they enter as a
    [Backend] and a [Codec] record, or are modelled from the specification
    where a claim needs their content. *)

From Stdlib Require Import String List ZArith Bool Lia.
Import ListNotations.
Local Open Scope string_scope.
Local Open Scope list_scope.

(** ** Python values *)

Definition bytes := list Byte.byte.

(** Truthiness of an optional bytes object: [None] and [b''] are false. *)
Definition truthy (b : option bytes) : bool :=
  match b with
  | Some (_ :: _) => true
  | _ => false
  end.

(** Truthiness of an optional string. *)
Definition truthy_str (o : option string) : bool :=
  match o with
  | Some EmptyString => false
  | Some _ => true
  | None => false
  end.

(** [x in l] for a list of strings. *)
Fixpoint str_in (x : string) (l : list string) : bool :=
  match l with
  | [] => false
  | y :: l' => String.eqb x y || str_in x l'
  end.

(** Exceptions.  [Exception] and [ValueError] carry their message; the
    faults Python raises by itself are [AttributeError] (attribute of [None]),
    [IndexError] and [TypeError]; [Foreign] is whatever a collaborator
    raises. *)
Inductive exn : Type :=
  | Exception (msg : string)
  | ValueError (msg : string)
  | AttributeError
  | IndexError
  | TypeError
  | Foreign (code : nat).

Definition NegotiationRejected : exn := Exception "Received SPNEGO rejection".
Definition NoCommonMechanism : exn := Exception "Cannot negotiate a common mech".

Inductive result (A : Type) : Type :=
  | Ok (a : A)
  | Err (e : exn).
Arguments Ok {A} a.
Arguments Err {A} e.

Definition is_ok {A} (r : result A) : bool :=
  match r with Ok _ => true | Err _ => false end.

(** ** Enumerations of [spnego._context] and [spnego._spnego] *)

Definition OID := string.

Module GSSMech.

(** Modelled from the spec: the enumeration [GSSMech] of [spnego/_context.py]
    is missing; section 3 names three mechanism identifiers (Kerberos v5, the
    legacy Kerberos identifier, NTLM) and a helper that classifies the
    Kerberos flavours.  The source uses the members [kerberos] and [ntlm] and
    the attributes [name], [value], [from_oid] and [is_kerberos_oid]. *)
Inductive t : Type := kerberos | ms_kerberos | ntlm.

Definition eqb (a b : t) : bool :=
  match a, b with
  | kerberos, kerberos | ms_kerberos, ms_kerberos | ntlm, ntlm => true
  | _, _ => false
  end.

Definition name (m : t) : string :=
  match m with
  | kerberos => "kerberos"
  | ms_kerberos => "ms_kerberos"
  | ntlm => "ntlm"
  end.

Definition value (m : t) : OID :=
  match m with
  | kerberos => "1.2.840.113554.1.2.2"
  | ms_kerberos => "1.2.840.48018.1.2.2"
  | ntlm => "1.3.6.1.4.1.311.2.2.10"
  end.

(** [GSSMech.from_oid]: [None] stands for the [ValueError]. *)
Definition from_oid (o : OID) : option t :=
  if String.eqb o (value kerberos) then Some kerberos
  else if String.eqb o (value ms_kerberos) then Some ms_kerberos
  else if String.eqb o (value ntlm) then Some ntlm
  else None.

Definition is_kerberos_oid (m : t) : bool :=
  match m with
  | kerberos | ms_kerberos => true
  | ntlm => false
  end.

(** [getattr(GSSMech, p)]: [None] stands for the [AttributeError]. *)
Definition getattr (p : string) : option t :=
  if String.eqb p (name kerberos) then Some kerberos
  else if String.eqb p (name ms_kerberos) then Some ms_kerberos
  else if String.eqb p (name ntlm) then Some ntlm
  else None.

Fixpoint mem (m : t) (l : list t) : bool :=
  match l with
  | [] => false
  | x :: l' => eqb m x || mem m l'
  end.

End GSSMech.

Module NegState.
Inductive t : Type := accept_complete | accept_incomplete | reject | request_mic.

Definition eqb (a b : t) : bool :=
  match a, b with
  | accept_complete, accept_complete
  | accept_incomplete, accept_incomplete
  | reject, reject
  | request_mic, request_mic => true
  | _, _ => false
  end.
End NegState.

(** The three SPNEGO messages, with the fields section 3 lists. *)
Record NegTokenInit : Type := mkInit {
  init_mech_types : list OID;
  init_mech_token : option bytes;
  init_mech_list_mic : option bytes
}.

Record NegTokenResp : Type := mkResp {
  neg_state : option NegState.t;
  supported_mech : option OID;
  response_token : option bytes;
  resp_mech_list_mic : option bytes
}.

(** What [unpack_neg_token] returns: the class of the object decides the
    branch of [_step_spnego_input]. *)
Inductive NegToken : Type :=
  | TokInit (t : NegTokenInit)
  | TokInit2 (t : NegTokenInit)
  | TokResp (t : NegTokenResp).

Definition mech_list_mic (t : NegToken) : option bytes :=
  match t with
  | TokInit i | TokInit2 i => init_mech_list_mic i
  | TokResp r => resp_mech_list_mic r
  end.

(** A call of one of the three packers, kept with its arguments; [step]
    hands it to the codec. *)
Inductive OutMsg : Type :=
  | PackInit (mech_list : list OID) (mech_token mic : option bytes)
  | PackInit2 (mech_list : list OID) (mech_token mic : option bytes)
  | PackResp (state : NegState.t) (response_token : option bytes)
             (supported : option OID) (mic : option bytes).

Record Codec : Type := mkCodec {
  unpack_neg_token : bytes -> result NegToken;
  pack_mech_type_list : list OID -> bytes;
  pack_neg_token_init : list OID -> option bytes -> option bytes -> bytes;
  pack_neg_token_init2 : list OID -> option bytes -> option bytes -> bytes;
  pack_neg_token_resp :
    NegState.t -> option bytes -> option OID -> option bytes -> bytes
}.

Definition pack (C : Codec) (m : OutMsg) : bytes :=
  match m with
  | PackInit l t mic => pack_neg_token_init C l t mic
  | PackInit2 l t mic => pack_neg_token_init2 C l t mic
  | PackResp st t sm mic => pack_neg_token_resp C st t sm mic
  end.

(** ** Sub-contexts *)

(** The arguments a proxy is created with. *)
Record Args : Type := mkArgs {
  username : option string;
  password : option string;
  hostname : option string;
  service : option string;
  channel_bindings : option bytes;
  context_req : Z;
  usage : string
}.

(** The capability set of section 4.1 as the proxy uses it.  [ctx] is the
    state of a sub-context object; an operation returns the state it leaves
    behind together with its value or the exception it raised. *)
Record Backend : Type := mkBackend {
  ctx : Type;
  gssapi_available_protocols : Z -> list string;
  GSSAPIProxy : Args -> string -> result ctx;
  NTLMProxy : Args -> result ctx;
  ctx_step : ctx -> option bytes -> ctx * result (option bytes);
  ctx_complete : ctx -> bool;
  ctx_requires_mech_list_mic : ctx -> bool;
  ctx_sign : ctx -> bytes -> ctx * result bytes;
  ctx_verify : ctx -> bytes -> bytes -> ctx * result unit;
  ctx_reset_ntlm_crypto_state : ctx -> bool -> ctx * result unit
}.

(** ** The state of a [NegotiateProxy] object *)

Section Proxy.

Variable B : Backend.

(** An element of [_context_list]: mechanism, sub-context, cached first
    token. *)
Definition Candidate : Type := (GSSMech.t * ctx B * option bytes)%type.

Record NegotiateProxy : Type := mkProxy {
  args : Args;
  _complete : bool;
  _context_list : list Candidate;
  _mech_list : list OID;
  _init_sent : bool;
  _mech_sent : bool;
  _mic_sent : bool;
  _mic_recv : bool;
  _mic_required : bool
}.

(** [__init__] *)
Definition __init__ (a : Args) : NegotiateProxy :=
  mkProxy a false [] [] false false false false false.

Definition set_complete (v : bool) (s : NegotiateProxy) : NegotiateProxy :=
  mkProxy (args s) v (_context_list s) (_mech_list s) (_init_sent s)
          (_mech_sent s) (_mic_sent s) (_mic_recv s) (_mic_required s).
Definition set_context_list (v : list Candidate) (s : NegotiateProxy) :=
  mkProxy (args s) (_complete s) v (_mech_list s) (_init_sent s)
          (_mech_sent s) (_mic_sent s) (_mic_recv s) (_mic_required s).
Definition set_mech_list (v : list OID) (s : NegotiateProxy) :=
  mkProxy (args s) (_complete s) (_context_list s) v (_init_sent s)
          (_mech_sent s) (_mic_sent s) (_mic_recv s) (_mic_required s).
Definition set_init_sent (v : bool) (s : NegotiateProxy) :=
  mkProxy (args s) (_complete s) (_context_list s) (_mech_list s) v
          (_mech_sent s) (_mic_sent s) (_mic_recv s) (_mic_required s).
Definition set_mech_sent (v : bool) (s : NegotiateProxy) :=
  mkProxy (args s) (_complete s) (_context_list s) (_mech_list s)
          (_init_sent s) v (_mic_sent s) (_mic_recv s) (_mic_required s).
Definition set_mic_sent (v : bool) (s : NegotiateProxy) :=
  mkProxy (args s) (_complete s) (_context_list s) (_mech_list s)
          (_init_sent s) (_mech_sent s) v (_mic_recv s) (_mic_required s).
Definition set_mic_recv (v : bool) (s : NegotiateProxy) :=
  mkProxy (args s) (_complete s) (_context_list s) (_mech_list s)
          (_init_sent s) (_mech_sent s) (_mic_sent s) v (_mic_required s).
Definition set_mic_required (v : bool) (s : NegotiateProxy) :=
  mkProxy (args s) (_complete s) (_context_list s) (_mech_list s)
          (_init_sent s) (_mech_sent s) (_mic_sent s) (_mic_recv s) v.

(** ** The monad of methods: state that survives an exception *)

Definition M (A : Type) : Type := NegotiateProxy -> NegotiateProxy * result A.

Definition ret {A} (a : A) : M A := fun s => (s, Ok a).

Definition bind {A R} (m : M A) (f : A -> M R) : M R :=
  fun s =>
    match m s with
    | (s', Ok a) => f a s'
    | (s', Err e) => (s', Err e)
    end.

Definition raise {A} (e : exn) : M A := fun s => (s, Err e).

Definition get : M NegotiateProxy := fun s => (s, Ok s).

Definition modify (f : NegotiateProxy -> NegotiateProxy) : M unit :=
  fun s => (f s, Ok tt).

Definition when (c : bool) (m : M unit) : M unit :=
  if c then m else ret tt.

End Proxy.

Arguments ret {B A} a.
Arguments bind {B A R} m f.
Arguments raise {B A} e.
Arguments get {B}.
Arguments modify {B} f.
Arguments when {B} c m.
Arguments args {B} n.
Arguments _complete {B} n.
Arguments _context_list {B} n.
Arguments _mech_list {B} n.
Arguments _init_sent {B} n.
Arguments _mech_sent {B} n.
Arguments _mic_sent {B} n.
Arguments _mic_recv {B} n.
Arguments _mic_required {B} n.
Arguments set_complete {B} v s.
Arguments set_context_list {B} v s.
Arguments set_mech_list {B} v s.
Arguments set_init_sent {B} v s.
Arguments set_mech_sent {B} v s.
Arguments set_mic_sent {B} v s.
Arguments set_mic_recv {B} v s.
Arguments set_mic_required {B} v s.

Declare Scope py_scope.
Delimit Scope py_scope with py.
Notation "x <- m ;; k" := (bind m (fun x => k))
  (at level 61, m at next level, right associativity) : py_scope.
Notation "' p <- m ;; k" := (bind m (fun x => match x with p => k end))
  (at level 61, p pattern, m at next level, right associativity) : py_scope.
Notation "m ;; k" := (bind m (fun _ => k))
  (at level 61, right associativity) : py_scope.
Local Open Scope py_scope.

(** ** The methods of [NegotiateProxy] *)

Section Methods.

Variable B : Backend.
Variable C : Codec.

(** The attribute [_mech] read by [_step_spnego_output] is set by the base
    class [ContextProxy], which is not among the embedded sources: it is a
    parameter, a function of the object. *)
Variable _mech : NegotiateProxy B -> option OID.

Abbreviation Proxy := (NegotiateProxy B).
Abbreviation M := (M B).

(** The property [_context]: the sub-context of the first candidate, or
    [None]. *)
Definition _context (s : Proxy) : option (ctx B) :=
  match _context_list s with
  | (_, c, _) :: _ => Some c
  | [] => None
  end.

(** A method call [self._context.f(...)]: [AttributeError] when [_context]
    is [None]; otherwise the sub-context is left in the state the call
    produced, also when the call raised. *)
Definition call_context {A} (f : ctx B -> ctx B * result A) : M A :=
  fun s =>
    match _context_list s with
    | [] => (s, Err AttributeError)
    | (m, c, t) :: rest =>
        let (c', r) := f c in
        (set_context_list ((m, c', t) :: rest) s, r)
    end.

(** Reading an attribute of [self._context]. *)
Definition read_context {A} (f : ctx B -> A) : M A :=
  fun s =>
    match _context s with
    | None => (s, Err AttributeError)
    | Some c => (s, Ok (f c))
    end.

Definition sign (data : bytes) : M bytes :=
  call_context (fun c => ctx_sign B c data).

Definition verify (data mic : bytes) : M unit :=
  call_context (fun c => ctx_verify B c data mic).

Definition _reset_ntlm_crypto_state (outgoing : bool) : M unit :=
  call_context (fun c => ctx_reset_ntlm_crypto_state B c outgoing).

Definition _requires_mech_list_mic : M bool :=
  read_context (ctx_requires_mech_list_mic B).

Definition complete (s : Proxy) : bool := _complete s.

(** [available_protocols] (a class method). *)
Definition available_protocols (req : Z) : list string :=
  let protocols := ["ntlm"; "negotiate"] in
  if str_in "kerberos" (gssapi_available_protocols B req)
  then "kerberos" :: protocols
  else protocols.

Definition lift {A} (r : result A) : M A := fun s => (s, r).

(** *** [_rebuild_context_list] *)

(** [[p for p in GSSAPIProxy.available_protocols(...) if p != 'negotiate']] *)
Definition gssapi_protocols (req : Z) : list string :=
  filter (fun p => negb (String.eqb p "negotiate"))
         (gssapi_available_protocols B req).

(** [[getattr(GSSMech, p) for p in gssapi_protocols]] *)
Fixpoint getattr_all (ps : list string) : result (list GSSMech.t) :=
  match ps with
  | [] => Ok []
  | p :: ps' =>
      match GSSMech.getattr p with
      | None => Err AttributeError
      | Some m =>
          match getattr_all ps' with
          | Ok l => Ok (m :: l)
          | Err e => Err e
          end
      end
  end.

(** The list [available_mechs], with [GSSMech.ntlm] appended. *)
Definition available_mechs (req : Z) : result (list GSSMech.t) :=
  match getattr_all (gssapi_protocols req) with
  | Ok l => Ok (l ++ [GSSMech.ntlm])
  | Err e => Err e
  end.

(** The first loop: the mechanisms of [mech_list] that are known and
    available, in the order of [mech_list]. *)
Fixpoint choose_mechs (available : list GSSMech.t) (mech_list : list OID)
  : list GSSMech.t :=
  match mech_list with
  | [] => []
  | mech :: rest =>
      match GSSMech.from_oid mech with
      | None => choose_mechs available rest
      | Some gss_mech =>
          if GSSMech.mem gss_mech available
             || (GSSMech.mem GSSMech.kerberos available
                 && GSSMech.is_kerberos_oid gss_mech)
          then gss_mech :: choose_mechs available rest
          else choose_mechs available rest
      end
  end.

(** Constructing a sub-context and taking its first token. *)
Definition first_step (made : result (ctx B)) (in_token : option bytes)
  : result (ctx B * option bytes) :=
  match made with
  | Err e => Err e
  | Ok c =>
      match ctx_step B c in_token with
      | (c', Ok first_token) => Ok (c', first_token)
      | (_, Err e) => Err e
      end
  end.

(** The second loop, over [chosen_mechs].  The result of an iteration is
    [None] after [continue]. *)
Fixpoint build_contexts (gp : list string) (in_token : option bytes)
    (one_required : bool) (chosen : list GSSMech.t) (mech_list : list OID)
  : M (list OID) :=
  match chosen with
  | [] => ret mech_list
  | mech :: rest =>
      s <- get ;;
      built <-
        (if str_in (GSSMech.name mech) gp then
           match first_step (GSSAPIProxy B (args s) (GSSMech.name mech))
                            in_token with
           | Ok x => ret (Some x)
           | Err _ => ret None
           end
         else
           x <- lift (first_step (NTLMProxy B (args s)) in_token) ;;
           ret (Some x)) ;;
      match built with
      | None => build_contexts gp in_token one_required rest mech_list
      | Some (context, first_token) =>
          modify (fun s => set_context_list
                    (_context_list s ++ [(mech, context, first_token)]) s) ;;
          if one_required then ret mech_list
          else build_contexts gp in_token one_required rest
                              (mech_list ++ [GSSMech.value mech])
      end
  end.

Definition _rebuild_context_list (mech_list : option (list OID))
    (in_token : option bytes) : M (list OID) :=
  s <- get ;;
  let gp := gssapi_protocols (context_req (args s)) in
  available <- lift (available_mechs (context_req (args s))) ;;
  let '(chosen_mechs, mech_list', one_required) :=
    match mech_list with
    | Some (m :: l) => (choose_mechs available (m :: l), m :: l, true)
    | _ => (available, [], false)
    end in
  match chosen_mechs with
  | [] => raise NoCommonMechanism
  | _ :: _ => build_contexts gp in_token one_required chosen_mechs mech_list'
  end.

(** *** The four phases of [step] *)

Definition state_is (r : NegTokenResp) (st : NegState.t) : bool :=
  match neg_state r with
  | Some x => NegState.eqb x st
  | None => false
  end.

Definition _step_spnego_input (in_token : option bytes)
  : M (option bytes * option bytes) :=
  match in_token with
  | Some (b :: bs) =>
      tok <- lift (unpack_neg_token C (b :: bs)) ;;
      let mic := mech_list_mic tok in
      match tok with
      | TokInit i | TokInit2 i =>
          let token := init_mech_token i in
          s <- get ;;
          l <- _rebuild_context_list (Some (_mech_list s)) token ;;
          modify (set_mech_list l) ;;
          modify (set_init_sent true) ;;
          ret (token, mic)
      | TokResp r =>
          let token := response_token r in
          when (truthy_str (supported_mech r)) (modify (set_mech_sent true)) ;;
          (if state_is r NegState.reject && negb (truthy token)
           then raise NegotiationRejected else ret tt) ;;
          (if state_is r NegState.request_mic
           then modify (set_mic_required true)
           else if state_is r NegState.accept_complete
                then modify (set_complete true)
                else ret tt) ;;
          ret (token, mic)
      end
  | _ =>
      l <- _rebuild_context_list None None ;;
      modify (set_mech_list l) ;;
      ret (None, None)
  end.

Definition _step_spnego_token (in_token : option bytes) : M (option bytes) :=
  done <- read_context (ctx_complete B) ;;
  if negb done then
    s <- get ;;
    out_token <-
      match _context_list s with
      | [] => raise IndexError
      | (m, c, cached) :: rest =>
          if truthy cached then
            modify (set_context_list ((m, c, None) :: rest)) ;;
            ret cached
          else call_context (fun c => ctx_step B c in_token)
      end ;;
    req <- _requires_mech_list_mic ;;
    when req (modify (set_mic_required true)) ;;
    ret out_token
  else ret None.

Definition _step_spnego_mic (in_mic : option bytes) : M (option bytes) :=
  match in_mic with
  | Some (b :: bs) =>
      s <- get ;;
      verify (pack_mech_type_list C (_mech_list s)) (b :: bs) ;;
      _reset_ntlm_crypto_state false ;;
      modify (set_mic_required true) ;;
      modify (set_mic_recv true) ;;
      s' <- get ;;
      when (_mic_sent s') (modify (set_complete true))
  | _ => ret tt
  end ;;
  s <- get ;;
  if _mic_required s && negb (_mic_sent s) then
    out_mic <- sign (pack_mech_type_list C (_mech_list s)) ;;
    _reset_ntlm_crypto_state true ;;
    modify (set_mic_sent true) ;;
    ret (Some out_mic)
  else ret None.

Definition _step_spnego_output (out_token out_mic : option bytes)
  : M (option OutMsg) :=
  s <- get ;;
  if negb (_init_sent s) then
    modify (set_init_sent true) ;;
    let build_func :=
      if String.eqb (usage (args s)) "initiate" then PackInit else PackInit2 in
    ret (Some (build_func (_mech_list s) out_token out_mic))
  else if negb (complete s) then
    supported <-
      (if negb (_mech_sent s) then
         modify (set_mech_sent true) ;; ret (_mech s)
       else ret None) ;;
    done <- read_context (ctx_complete B) ;;
    state <-
      (if done then
         s' <- get ;;
         if _mic_sent s' && negb (_mic_recv s') then ret NegState.request_mic
         else modify (set_complete true) ;; ret NegState.accept_complete
       else ret NegState.accept_incomplete) ;;
    ret (Some (PackResp state out_token supported out_mic))
  else ret None.

(** [step], up to the packing of the result: the value is the call of the
    packer that [_step_spnego_output] makes. *)
Definition step (in_token : option bytes) : M (option OutMsg) :=
  '(mech_token_in, mech_list_mic) <- _step_spnego_input in_token ;;
  mech_token_out <- _step_spnego_token mech_token_in ;;
  out_mic <- _step_spnego_mic mech_list_mic ;;
  out_token <- _step_spnego_output mech_token_out out_mic ;;
  s <- get ;;
  (if complete s then
     match _context_list s with
     | [] => raise IndexError
     | c :: _ => modify (set_context_list [c])
     end
   else ret tt) ;;
  ret out_token.

(** [step] with the token packed. *)
Definition step_packed (in_token : option bytes) : M (option bytes) :=
  out <- step in_token ;;
  ret (option_map (pack C) out).

(** A caller driving [step]: the results of the calls, in order, and the
    object afterwards.  A caller may go on after an exception. *)
Fixpoint run (inputs : list (option bytes)) (s : Proxy)
  : Proxy * list (result (option OutMsg)) :=
  match inputs with
  | [] => (s, [])
  | i :: rest =>
      let (s', r) := step i s in
      let (s'', rs) := run rest s' in
      (s'', r :: rs)
  end.

(** The objects a caller can hold: a new one, or one on which [step] has
    been called, whatever the outcome. *)
Inductive reachable (a : Args) : Proxy -> Prop :=
  | reach_init : reachable a (__init__ B a)
  | reach_step : forall s in_token,
      reachable a s -> reachable a (fst (step in_token s)).

End Methods.

Arguments _context {B} s.
Arguments call_context {B A} f _.
Arguments read_context {B A} f _.
Arguments sign {B} data _.
Arguments verify {B} data mic _.
Arguments _reset_ntlm_crypto_state {B} outgoing _.
Arguments _requires_mech_list_mic {B} _.
Arguments complete {B} s.
Arguments lift {B A} r _.
Arguments build_contexts {B} gp in_token one_required chosen mech_list _.
Arguments _rebuild_context_list {B} mech_list in_token _.
Arguments _step_spnego_input {B} C in_token _.
Arguments _step_spnego_token {B} in_token _.
Arguments _step_spnego_mic {B} C in_mic _.
Arguments _step_spnego_output {B} _mech out_token out_mic _.
Arguments step {B} C _mech in_token _.
Arguments step_packed {B} C _mech in_token _.
Arguments run {B} C _mech inputs s.
Arguments reachable {B} C _mech a _.

(** ** [spnego/auth.py] *)

Module Auth.

(** The four classes [_new_context] chooses from. *)
Inductive proxy : Type := SSPIProxy | GSSAPIProxy | NegotiateProxy | NTLMProxy.

(** An argument as Python passes it: [client] and [server] hand a string
    where [_new_context] computes with a bit set. *)
Inductive pyval : Type :=
  | PyInt (z : Z)
  | PyStr (s : string).

(** [a & b] with [b] an integer flag: a string operand is a [TypeError]. *)
Definition py_and (a : pyval) (b : Z) : result Z :=
  match a with
  | PyInt z => Ok (Z.land z b)
  | PyStr _ => Err TypeError
  end.

(** A call [proxy(username, ..., usage, proto, options)] that is made. *)
Record call : Type := mkCall {
  call_proxy : proxy;
  call_usage : pyval;
  call_proto : string;
  call_options : pyval
}.

(** The last statement of [_new_context],
    [proxy(username, password, hostname, service, channel_bindings,
    context_req, usage, proto, options)], passes nine positional arguments.
    [NegotiateProxy.__init__] (negotiate.py) takes eight (username, password,
    hostname, service, channel_bindings, context_req, usage, protocol), so
    for that class the call is a [TypeError].  The other three classes are
    not among the embedded sources: their call is kept as it is made. *)
Definition construct (p : proxy) (usage : pyval) (proto : string)
    (options : pyval) : result call :=
  match p with
  | NegotiateProxy => Err TypeError
  | _ => Ok (mkCall p usage proto options)
  end.

Section Factory.

(** [str.lower]. *)
Variable lower : string -> string.

(** The members of [NegotiateOptions], an enumeration of
    [spnego/_context.py]. *)
Variables use_sspi use_gssapi use_negotiate use_ntlm : Z.

(** [SSPIProxy.available_protocols] and [GSSAPIProxy.available_protocols]. *)
Variable sspi_available_protocols : Z -> list string.
Variable gssapi_available_protocols : Z -> list string.

Definition use_flags : Z :=
  Z.lor (Z.lor (Z.lor use_sspi use_gssapi) use_negotiate) use_ntlm.

Definition invalid_protocol (protocol : string) : exn :=
  ValueError ("Invalid protocol specified '" ++ protocol
              ++ "', must be kerberos, negotiate, or ntlm").

Definition _new_context (context_req : Z) (protocol : string)
    (options usage : pyval) : result call :=
  let proto := lower protocol in
  let opt (flag : Z) : bool :=
    match py_and options flag with
    | Ok z => negb (z =? 0)%Z
    | Err _ => false
    end in
  match py_and options use_flags with
  | Err e => Err e
  | Ok z =>
      let use_specified := negb (z =? 0)%Z in
      if opt use_sspi
         || (negb use_specified
             && str_in proto (sspi_available_protocols context_req))
      then construct SSPIProxy usage proto options
      else if opt use_gssapi
              || (negb use_specified
                  && (String.eqb proto "kerberos"
                      || str_in proto (gssapi_available_protocols context_req)))
      then construct GSSAPIProxy usage proto options
      else if opt use_negotiate
              || (negb use_specified && String.eqb proto "negotiate")
      then construct NegotiateProxy usage proto options
      else if opt use_ntlm
              || (negb use_specified && String.eqb proto "ntlm")
      then construct NTLMProxy usage proto options
      else Err (invalid_protocol protocol)
  end.

(** [client] and [server]: the last two arguments go to [_new_context] in
    the order usage, options. *)
Definition client (context_req : Z) (protocol : string) (options : Z)
  : result call :=
  _new_context context_req protocol (PyStr "initiate") (PyInt options).

Definition server (context_req : Z) (protocol : string) (options : Z)
  : result call :=
  _new_context context_req protocol (PyStr "accept") (PyInt options).

End Factory.

(** Lower-casing of the 26 letters of ASCII. *)
Definition lower_char (c : Ascii.ascii) : Ascii.ascii :=
  let n := Ascii.nat_of_ascii c in
  if (65 <=? n)%nat && (n <=? 90)%nat then Ascii.ascii_of_nat (n + 32) else c.

Fixpoint ascii_lower (s : string) : string :=
  match s with
  | EmptyString => EmptyString
  | String c s' => String (lower_char c) (ascii_lower s')
  end.

End Auth.

(** ** Observing the calls made on a sub-context *)

(** A call on a sub-context, with whether it returned ([true]) or raised. *)
Inductive Call : Type :=
  | CallStep (in_token : option bytes) (ok : bool)
  | CallSign (data : bytes) (ok : bool)
  | CallVerify (data mic : bytes) (ok : bool)
  | CallReset (outgoing : bool) (ok : bool).

Definition with_log {X A} (log : list Call) (ev : bool -> Call)
    (r : X * result A) : (X * list Call) * result A :=
  ((fst r, log ++ [ev (is_ok (snd r))]), snd r).

(** [recording B] behaves as [B]; every sub-context carries the list of the
    calls made on it, oldest first. *)
Definition recording (B : Backend) : Backend :=
  {| ctx := ctx B * list Call;
     gssapi_available_protocols := gssapi_available_protocols B;
     GSSAPIProxy a p :=
       match GSSAPIProxy B a p with Ok c => Ok (c, []) | Err e => Err e end;
     NTLMProxy a :=
       match NTLMProxy B a with Ok c => Ok (c, []) | Err e => Err e end;
     ctx_step cl t := with_log (snd cl) (CallStep t) (ctx_step B (fst cl) t);
     ctx_complete cl := ctx_complete B (fst cl);
     ctx_requires_mech_list_mic cl := ctx_requires_mech_list_mic B (fst cl);
     ctx_sign cl d := with_log (snd cl) (CallSign d) (ctx_sign B (fst cl) d);
     ctx_verify cl d m :=
       with_log (snd cl) (CallVerify d m) (ctx_verify B (fst cl) d m);
     ctx_reset_ntlm_crypto_state cl o :=
       with_log (snd cl) (CallReset o)
                (ctx_reset_ntlm_crypto_state B (fst cl) o) |}.

(** The calls recorded on the active sub-context. *)
Definition calls {B} (s : NegotiateProxy (recording B)) : list Call :=
  match _context s with
  | Some cl => snd cl
  | None => []
  end.

(** ** A small mechanism and a table codec, for concrete runs *)

Module Toy.

(** A sub-context that completes after [legs] calls of [step] and, when
    [mic] is set, requires the mechListMIC once it is complete. *)
Record state : Type := mkState {
  done : nat;
  legs : nat;
  mic : bool
}.

Definition tag : bytes := [Byte.x4d; Byte.x49; Byte.x43].

Definition toy_step (c : state) (t : option bytes)
  : state * result (option bytes) :=
  if (done c <? legs c)%nat
  then (mkState (S (done c)) (legs c) (mic c),
        Ok (Some (repeat Byte.x4e (S (done c)))))
  else (c, Err (Foreign 1)).

Definition toy_complete (c : state) : bool := (legs c <=? done c)%nat.

(** [gss]: what the GSSAPI provider advertises; [gss_ok]: whether a GSSAPI
    context can be established. *)
Definition backend (gss : list string) (gss_ok : bool) (n : nat) (m : bool)
  : Backend :=
  {| ctx := state;
     gssapi_available_protocols _ := gss;
     GSSAPIProxy _ _ := if gss_ok then Ok (mkState 0 n m) else Err (Foreign 2);
     NTLMProxy _ := Ok (mkState 0 n m);
     ctx_step := toy_step;
     ctx_complete := toy_complete;
     ctx_requires_mech_list_mic c := mic c && toy_complete c;
     ctx_sign c d := (c, Ok (tag ++ d));
     ctx_verify c d m :=
       (c, if list_eq_dec Byte.byte_eq_dec m (tag ++ d)
           then Ok tt else Err (Foreign 3));
     ctx_reset_ntlm_crypto_state c _ := (c, Ok tt) |}.

(** A codec that decodes by looking the token up in a table. *)
Fixpoint lookup (tbl : list (bytes * NegToken)) (b : bytes) : result NegToken :=
  match tbl with
  | [] => Err (Foreign 4)
  | (k, v) :: rest =>
      if list_eq_dec Byte.byte_eq_dec k b then Ok v else lookup rest b
  end.

Definition codec (tbl : list (bytes * NegToken)) : Codec :=
  {| unpack_neg_token := lookup tbl;
     pack_mech_type_list l := Byte.x30 :: map (fun _ => Byte.x06) l;
     pack_neg_token_init _ _ _ := [Byte.x60];
     pack_neg_token_init2 _ _ _ := [Byte.x60];
     pack_neg_token_resp _ _ _ _ := [Byte.xa1] |}.

(** Modelled from the spec: the attribute [_mech] of the missing base class;
    section 4.3 has [supported_mech] equal to [mech_list[0]]. *)
Definition _mech {B} (s : NegotiateProxy B) : option OID :=
  hd_error (_mech_list s).

Definition initiator : Args :=
  mkArgs (Some "user") (Some "pass") (Some "server") (Some "host") None 0
         "initiate".

Definition acceptor : Args :=
  mkArgs None None (Some "server") (Some "host") None 0 "accept".

Definition offer : bytes := [Byte.x60].
Definition authenticate : bytes := [Byte.x04].
Definition challenge : bytes := [Byte.x01].
Definition early_accept : bytes := [Byte.x02].
Definition rejection : bytes := [Byte.x03].

(** Tokens of a peer: an initial offer of NTLM with its first token; a
    challenge in an [accept_incomplete] reply; the same challenge in an
    [accept_complete] reply; a bare [reject]; and an [accept_incomplete]
    reply that carries the last token and a mechListMIC. *)
Definition replies : list (bytes * NegToken) :=
  [ (offer,
     TokInit (mkInit [GSSMech.value GSSMech.ntlm] (Some [Byte.x4e]) None));
    (authenticate,
     TokResp (mkResp (Some NegState.accept_incomplete) None
                     (Some [Byte.x41])
                     (Some (tag ++ [Byte.x30; Byte.x06]))));
    (challenge,
     TokResp (mkResp (Some NegState.accept_incomplete)
                     (Some (GSSMech.value GSSMech.ntlm))
                     (Some [Byte.x43]) None));
    (early_accept,
     TokResp (mkResp (Some NegState.accept_complete) None
                     (Some [Byte.x43]) None));
    (rejection,
     TokResp (mkResp (Some NegState.reject) None None None)) ].

End Toy.

(** ** Vocabulary of the properties *)

(** [m] keeps [P]: whatever the outcome of [m], [P] still holds of the
    object afterwards. *)
Definition keeps {B} (P : NegotiateProxy B -> Prop) {A} (m : M B A) : Prop :=
  forall s, P s -> P (fst (m s)).

(** The active sub-context exists and is complete. *)
Definition active_complete {B} (s : NegotiateProxy B) : bool :=
  match _context s with
  | Some c => ctx_complete B c
  | None => false
  end.

(** [not mic_required or (mic_sent and mic_recv)]. *)
Definition mic_settled {B} (s : NegotiateProxy B) : bool :=
  negb (_mic_required s) || (_mic_sent s && _mic_recv s).

(** The invariant of section 3 on [complete]. *)
Definition complete_invariant {B} (s : NegotiateProxy B) : Prop :=
  complete s = true -> active_complete s = true /\ mic_settled s = true.

(** The token a step receives, decoded, when there is one to decode. *)
Definition decoded (C : Codec) (in_token : option bytes) : option NegToken :=
  match in_token with
  | Some (b :: bs) =>
      match unpack_neg_token C (b :: bs) with
      | Ok t => Some t
      | Err _ => None
      end
  | _ => None
  end.

(** The input is a [NegTokenResp] whose [neg_state] is [accept_complete]. *)
Definition accepts_complete (C : Codec) (in_token : option bytes) : bool :=
  match decoded C in_token with
  | Some (TokResp r) =>
      match neg_state r with
      | Some NegState.accept_complete => true
      | _ => false
      end
  | _ => false
  end.

(** The [mech_list_mic] of the input is present. *)
Definition incoming_mic (C : Codec) (in_token : option bytes) : bool :=
  match decoded C in_token with
  | Some t => truthy (mech_list_mic t)
  | None => false
  end.

(** The step returned a packed [NegTokenResp] with [supported_mech] set. *)
Definition emits_supported (r : result (option OutMsg)) : bool :=
  match r with
  | Ok (Some (PackResp _ _ (Some _) _)) => true
  | _ => false
  end.

(** The step returned a packed [NegTokenResp] with [neg_state = request_mic]. *)
Definition emits_request_mic (r : result (option OutMsg)) : bool :=
  match r with
  | Ok (Some (PackResp NegState.request_mic _ _ _)) => true
  | _ => false
  end.

Definition count_supported (rs : list (result (option OutMsg))) : nat :=
  length (filter emits_supported rs).

(** In a sequence of calls: a verification that returns is followed at once
    by the reset of the incoming counter, a signature that returns by the
    reset of the outgoing counter; a call that raises ends the sequence; no
    reset occurs elsewhere and [step] is not called. *)
Fixpoint resets_follow (evs : list Call) : bool :=
  match evs with
  | [] => true
  | [CallVerify _ _ false] | [CallSign _ false] => true
  | CallVerify _ _ true :: CallReset false ok :: rest =>
      if ok then resets_follow rest else match rest with [] => true | _ => false end
  | CallSign _ true :: CallReset true ok :: rest =>
      if ok then resets_follow rest else match rest with [] => true | _ => false end
  | _ => false
  end.

(** The last statement of [step]: the candidates other than the active one
    are dropped once the object is complete. *)
Definition prune {B A} (s : NegotiateProxy B) (out : A)
  : NegotiateProxy B * result A :=
  if complete s then
    match _context_list s with
    | [] => (s, Err IndexError)
    | c :: _ => (set_context_list [c] s, Ok out)
    end
  else (s, Ok out).

Module Scenario.

(** An initiator with the built-in NTLM only: the mechanism completes on its
    second leg and then requires the mechListMIC. *)
Definition ntlm_only : Backend := Toy.backend [] true 2 true.

(** A mechanism of two legs that never requires the mechListMIC. *)
Definition two_legs : Backend := Toy.backend [] true 2 false.

(** A mechanism of three legs that never requires the mechListMIC. *)
Definition three_legs : Backend := Toy.backend [] true 3 false.

(** A GSSAPI provider that advertises Kerberos and NTLM and cannot establish
    a context with either. *)
Definition gssapi_failing : Backend :=
  Toy.backend ["kerberos"; "negotiate"; "ntlm"] false 2 true.

Definition codec : Codec := Toy.codec Toy.replies.

Definition start (B : Backend) : NegotiateProxy B := __init__ B Toy.initiator.

End Scenario.

(** The calls the MIC phase makes on the active sub-context when every one
    of them returns. *)
Definition mic_calls {B} (C : Codec) (in_mic : option bytes)
    (s : NegotiateProxy B) : list Call :=
  let data := pack_mech_type_list C (_mech_list s) in
  match in_mic with
  | Some (b :: bs) =>
      [CallVerify data (b :: bs) true; CallReset false true]
      ++ (if negb (_mic_sent s) then [CallSign data true; CallReset true true]
          else [])
  | _ =>
      if _mic_required s && negb (_mic_sent s)
      then [CallSign data true; CallReset true true] else []
  end.

Module Runs.

Import Scenario.

(** The initiator after its first call and a reply that carries the
    challenge with [neg_state = accept_complete]. *)
Definition after_early_accept (B : Backend) : NegotiateProxy B :=
  fst (run codec Toy._mech [None; Some Toy.early_accept] (start B)).

(** The initiator after its first call. *)
Definition after_first (B : Backend) : NegotiateProxy B :=
  fst (run codec Toy._mech [None] (start B)).

(** The acceptor after the initial offer of the peer. *)
Definition after_offer (B : Backend) : NegotiateProxy B :=
  fst (step codec Toy._mech (Some Toy.offer) (__init__ B Toy.acceptor)).

(** The initiator between the input phase and the inner-token phase of its
    first call: the candidate holds its cached first token. *)
Definition candidates_built (B : Backend) : NegotiateProxy B :=
  fst (_step_spnego_input codec None (start B)).

(** The acceptor between the inner-token phase and the MIC phase of its
    second call, on a reply that carries a mechListMIC. *)
Definition before_mic (B : Backend) : NegotiateProxy B :=
  fst (_step_spnego_token (Some [Byte.x41])
         (fst (_step_spnego_input codec (Some Toy.authenticate)
                 (after_offer B)))).

End Runs.

(** ** Vocabulary of the further properties *)

(** The mechanisms of a list of candidates, in order. *)
Definition mechs_of {B} (l : list (Candidate B)) : list GSSMech.t :=
  map (fun c => fst (fst c)) l.

(** The step returned a packed token that carries a [mech_list_mic]. *)
Definition emits_mic (r : result (option OutMsg)) : bool :=
  match r with
  | Ok (Some (PackInit _ _ (Some _)))
  | Ok (Some (PackInit2 _ _ (Some _)))
  | Ok (Some (PackResp _ _ _ (Some _))) => true
  | _ => false
  end.

Definition count_mic (rs : list (result (option OutMsg))) : nat :=
  length (filter emits_mic rs).

(** The class [_new_context] picks when a [use_*] bit is set: the first of
    SSPI, GSSAPI, negotiate, NTLM whose bit is in the options. *)
Definition forced_proxy (use_sspi use_gssapi use_negotiate : Z) (options : Z)
  : Auth.proxy :=
  if negb (Z.land options use_sspi =? 0)%Z then Auth.SSPIProxy
  else if negb (Z.land options use_gssapi =? 0)%Z then Auth.GSSAPIProxy
  else if negb (Z.land options use_negotiate =? 0)%Z then Auth.NegotiateProxy
  else Auth.NTLMProxy.

(** The input is a [NegTokenInit] or a [NegTokenInit2]. *)
Definition offers (C : Codec) (in_token : option bytes) : bool :=
  match decoded C in_token with
  | Some (TokInit _) | Some (TokInit2 _) => true
  | _ => false
  end.

(** The packer of the first message, by usage. *)
Definition build_func (a : Args)
  : list OID -> option bytes -> option bytes -> OutMsg :=
  if String.eqb (usage a) "initiate" then PackInit else PackInit2.

(** The initiator after its first call and the challenge of the peer. *)
Definition after_challenge (B : Backend) : NegotiateProxy B :=
  fst (run Scenario.codec Toy._mech [None; Some Toy.challenge]
           (Scenario.start B)).

(** A codec that knows two initial tokens with the same inner token: one
    offers NTLM, the other, a [NegTokenInit2], offers Kerberos. *)
Definition two_offers : Codec :=
  Toy.codec
    [ (Toy.offer,
       TokInit (mkInit [GSSMech.value GSSMech.ntlm] (Some [Byte.x4e]) None));
      ([Byte.x61],
       TokInit2 (mkInit [GSSMech.value GSSMech.kerberos] (Some [Byte.x4e])
                        None)) ].

(** The [NegTokenInit] or [NegTokenInit2] the input decodes to. *)
Definition offered (C : Codec) (in_token : option bytes) : option NegTokenInit :=
  match decoded C in_token with
  | Some (TokInit i) | Some (TokInit2 i) => Some i
  | _ => None
  end.
(** * Properties *)

(** ** Fields that only ever become true *)

Section Stable.

Variable B : Backend.
Variable C : Codec.
Variable _mech : NegotiateProxy B -> option OID.

(** [P] is a property of the object that no assignment made by the methods
    can falsify: the assignments are to [_context_list], [_mech_list] and the
    five flags, and [_complete] and [_mech_sent] are only ever set to [True]. *)
Variable P : NegotiateProxy B -> Prop.
Hypothesis P_context_list : forall l s, P s -> P (set_context_list l s).
Hypothesis P_mech_list : forall l s, P s -> P (set_mech_list l s).
Hypothesis P_init_sent : forall s, P s -> P (set_init_sent true s).
Hypothesis P_mech_sent : forall s, P s -> P (set_mech_sent true s).
Hypothesis P_mic_sent : forall s, P s -> P (set_mic_sent true s).
Hypothesis P_mic_recv : forall s, P s -> P (set_mic_recv true s).
Hypothesis P_mic_required : forall s, P s -> P (set_mic_required true s).
Hypothesis P_complete : forall s, P s -> P (set_complete true s).

Local Abbreviation keeps := (@keeps B P _).

Lemma keeps_ret {A} (a : A) : keeps (ret a).
Proof. intros s H; exact H. Qed.

Lemma keeps_raise {A} (e : exn) : keeps (@raise B A e).
Proof. intros s H; exact H. Qed.

Lemma keeps_get : keeps get.
Proof. intros s H; exact H. Qed.

Lemma keeps_lift {A} (r : result A) : keeps (lift r).
Proof. intros s H; exact H. Qed.

Lemma keeps_bind {A R} (m : M B A) (f : A -> M B R) :
  keeps m -> (forall a, keeps (f a)) -> keeps (bind m f).
Proof.
  intros Hm Hf s H. unfold bind.
  specialize (Hm s H). destruct (m s) as [s' [a|e]]; simpl in *.
  - apply Hf, Hm.
  - exact Hm.
Qed.

Lemma keeps_modify (f : NegotiateProxy B -> NegotiateProxy B) :
  (forall s, P s -> P (f s)) -> keeps (modify f).
Proof. intros Hf s H. apply Hf, H. Qed.

Lemma keeps_when (c : bool) (m : M B unit) : keeps m -> keeps (when c m).
Proof. intros Hm. destruct c; [exact Hm | apply keeps_ret]. Qed.

Lemma keeps_call_context {A} (f : ctx B -> ctx B * result A) :
  keeps (call_context f).
Proof.
  intros s H. unfold call_context.
  destruct (_context_list s) as [|[[m c] t] rest]; [exact H|].
  destruct (f c) as [c' r]. simpl. apply P_context_list, H.
Qed.

Lemma keeps_read_context {A} (f : ctx B -> A) : keeps (read_context f).
Proof.
  intros s H. unfold read_context. destruct (_context s); exact H.
Qed.

(** One step of a proof that a method keeps [P]: split a sequence, decide a
    test, or close a leaf. *)
Ltac keeps_step :=
  lazymatch goal with
  | |- keeps (ret _) => apply keeps_ret
  | |- keeps (raise _) => apply keeps_raise
  | |- keeps get => apply keeps_get
  | |- keeps (lift _) => apply keeps_lift
  | |- keeps (call_context _) => apply keeps_call_context
  | |- keeps (read_context _) => apply keeps_read_context
  | |- keeps (when _ _) => apply keeps_when
  | |- keeps (modify _) => apply keeps_modify; intros; auto
  | |- keeps (bind _ _) => apply keeps_bind; [|intros]
  | |- keeps (match ?x with _ => _ end) => destruct x
  end.

Lemma keeps_build_contexts gp in_token one_required chosen :
  forall mech_list,
    keeps (build_contexts gp in_token one_required chosen mech_list).
Proof.
  induction chosen as [|mech rest IH]; intros mech_list; cbn [build_contexts].
  - apply keeps_ret.
  - apply keeps_bind; [apply keeps_get|intros s0].
    apply keeps_bind; [repeat keeps_step|intros built].
    destruct built as [[context first_token]|]; [|apply IH].
    apply keeps_bind; [keeps_step|intros _].
    destruct one_required; [apply keeps_ret|apply IH].
Qed.

Lemma keeps_rebuild_context_list mech_list in_token :
  keeps (_rebuild_context_list mech_list in_token).
Proof.
  unfold _rebuild_context_list.
  apply keeps_bind; [apply keeps_get|intros s0].
  apply keeps_bind; [apply keeps_lift|intros available].
  destruct mech_list as [[|m l]|];
    (match goal with
     | |- keeps (match ?x with _ => _ end) => destruct x
     end; [apply keeps_raise|apply keeps_build_contexts]).
Qed.

Lemma keeps_step_spnego_input in_token : keeps (_step_spnego_input C in_token).
Proof.
  unfold _step_spnego_input.
  destruct in_token as [[|b bs]|];
    repeat first [apply keeps_rebuild_context_list | keeps_step].
Qed.

Lemma keeps_step_spnego_token in_token : keeps (_step_spnego_token in_token).
Proof.
  unfold _step_spnego_token, _requires_mech_list_mic.
  repeat keeps_step.
Qed.

Lemma keeps_step_spnego_mic in_mic : keeps (_step_spnego_mic C in_mic).
Proof.
  unfold _step_spnego_mic, verify, sign, _reset_ntlm_crypto_state.
  repeat keeps_step.
Qed.

Lemma keeps_step_spnego_output out_token out_mic :
  keeps (_step_spnego_output _mech out_token out_mic).
Proof.
  unfold _step_spnego_output.
  repeat keeps_step.
Qed.

Lemma keeps_step_call in_token : keeps (step C _mech in_token).
Proof.
  unfold step.
  apply keeps_bind; [apply keeps_step_spnego_input|intros [t m]].
  apply keeps_bind; [apply keeps_step_spnego_token|intros t'].
  apply keeps_bind; [apply keeps_step_spnego_mic|intros o].
  apply keeps_bind; [apply keeps_step_spnego_output|intros out].
  repeat keeps_step.
Qed.

Lemma keeps_run inputs :
  forall s, P s -> P (fst (run C _mech inputs s)).
Proof.
  induction inputs as [|i rest IH]; intros s H; simpl; [exact H|].
  pose proof (keeps_step_call i s H) as H1.
  destruct (step C _mech i s) as [s' r]; simpl in H1.
  specialize (IH s' H1).
  destruct (run C _mech rest s') as [s'' rs]; exact IH.
Qed.

End Stable.

(** ** The shape of a step *)

Section Steps.

Variable B : Backend.
Variable C : Codec.
Variable _mech : NegotiateProxy B -> option OID.

(** [step] is its four phases in sequence, each one ending the step when it
    raises, followed by the pruning of the candidates. *)
Lemma step_phases (in_token : option bytes) (s : NegotiateProxy B) :
  step C _mech in_token s =
  match _step_spnego_input C in_token s with
  | (s1, Err e) => (s1, Err e)
  | (s1, Ok (t, m)) =>
      match _step_spnego_token t s1 with
      | (s2, Err e) => (s2, Err e)
      | (s2, Ok t') =>
          match _step_spnego_mic C m s2 with
          | (s3, Err e) => (s3, Err e)
          | (s3, Ok o) =>
              match _step_spnego_output _mech t' o s3 with
              | (s4, Err e) => (s4, Err e)
              | (s4, Ok out) => prune s4 out
              end
          end
      end
  end.
Proof.
  unfold step, bind at 1.
  destruct (_step_spnego_input C in_token s) as [s1 [[t m]|e]]; [|reflexivity].
  unfold bind at 1.
  destruct (_step_spnego_token t s1) as [s2 [t'|e]]; [|reflexivity].
  unfold bind at 1.
  destruct (_step_spnego_mic C m s2) as [s3 [o|e]]; [|reflexivity].
  unfold bind at 1.
  destruct (_step_spnego_output _mech t' o s3) as [s4 [out|e]]; [|reflexivity].
  unfold prune, bind, get, modify, ret, raise.
  destruct (complete s4); [|reflexivity].
  destruct (_context_list s4); reflexivity.
Qed.

Lemma run_cons (i : option bytes) (rest : list (option bytes))
    (s : NegotiateProxy B) :
  run C _mech (i :: rest) s =
  (fst (run C _mech rest (fst (step C _mech i s))),
   snd (step C _mech i s) :: snd (run C _mech rest (fst (step C _mech i s)))).
Proof.
  simpl. destruct (step C _mech i s) as [s' r]. simpl.
  destruct (run C _mech rest s') as [s'' rs]. reflexivity.
Qed.

(** *** [_mech_sent] and the [supported_mech] of a reply *)

Lemma mech_sent_input (in_token : option bytes) (s : NegotiateProxy B) :
  _mech_sent s = true ->
  _mech_sent (fst (_step_spnego_input C in_token s)) = true.
Proof.
  intros H.
  apply (keeps_step_spnego_input B C (fun s => _mech_sent s = true));
    intros; cbn; auto.
Qed.

Lemma mech_sent_token (in_token : option bytes) (s : NegotiateProxy B) :
  _mech_sent s = true ->
  _mech_sent (fst (_step_spnego_token in_token s)) = true.
Proof.
  intros H.
  apply (keeps_step_spnego_token B (fun s => _mech_sent s = true));
    intros; cbn; auto.
Qed.

Lemma mech_sent_mic (in_mic : option bytes) (s : NegotiateProxy B) :
  _mech_sent s = true ->
  _mech_sent (fst (_step_spnego_mic C in_mic s)) = true.
Proof.
  intros H.
  apply (keeps_step_spnego_mic B C (fun s => _mech_sent s = true));
    intros; cbn; auto.
Qed.

Lemma mech_sent_kept (in_token : option bytes) (s : NegotiateProxy B) :
  _mech_sent s = true -> _mech_sent (fst (step C _mech in_token s)) = true.
Proof.
  intros H.
  apply (keeps_step_call B C _mech (fun s => _mech_sent s = true));
    intros; cbn; auto.
Qed.

(** The output phase sets [supported_mech] only when [_mech_sent] was false,
    and sets [_mech_sent] when it does. *)
Lemma output_supported (out_token out_mic : option bytes) (s : NegotiateProxy B) :
  emits_supported (snd (_step_spnego_output _mech out_token out_mic s)) = true ->
  _mech_sent s = false /\
  _mech_sent (fst (_step_spnego_output _mech out_token out_mic s)) = true.
Proof.
  unfold _step_spnego_output, bind, get, modify, ret, read_context, complete.
  destruct s as [a c l ml i ms sent recv req]; simpl.
  destruct i; simpl.
  2:{ destruct (String.eqb (usage a) "initiate"); discriminate. }
  destruct c; simpl; [discriminate|].
  destruct ms; simpl.
  - destruct l as [|[[m x] t] rest]; simpl; [discriminate|].
    destruct (ctx_complete B x); simpl; [|discriminate].
    destruct (sent && negb recv); simpl; discriminate.
  - destruct l as [|[[m x] t] rest]; simpl; [discriminate|].
    intros _. split; [reflexivity|].
    destruct (ctx_complete B x); simpl; [|reflexivity].
    destruct (sent && negb recv); reflexivity.
Qed.

Lemma prune_mech_sent {A} (s : NegotiateProxy B) (out : A) :
  _mech_sent (fst (prune s out)) = _mech_sent s.
Proof.
  unfold prune. destruct (complete s); [|reflexivity].
  destruct (_context_list s); reflexivity.
Qed.

Lemma prune_result {A} (s : NegotiateProxy B) (out : A) (r : A) :
  snd (prune s out) = Ok r -> r = out.
Proof.
  unfold prune. destruct (complete s).
  - destruct (_context_list s); simpl; congruence.
  - simpl; congruence.
Qed.

(** A step that emits [supported_mech] had [_mech_sent] false after its
    input phase and ends with [_mech_sent] true. *)
Lemma step_emits_supported (in_token : option bytes) (s : NegotiateProxy B) :
  emits_supported (snd (step C _mech in_token s)) = true ->
  _mech_sent (fst (_step_spnego_input C in_token s)) = false /\
  _mech_sent (fst (step C _mech in_token s)) = true.
Proof.
  rewrite step_phases.
  destruct (_step_spnego_input C in_token s) as [s1 [[t m]|e]]; [|discriminate].
  pose proof (mech_sent_token t s1) as K2.
  destruct (_step_spnego_token t s1) as [s2 [t'|e]]; [|discriminate].
  pose proof (mech_sent_mic m s2) as K3.
  destruct (_step_spnego_mic C m s2) as [s3 [o|e]]; [|discriminate].
  pose proof (output_supported t' o s3) as K4.
  destruct (_step_spnego_output _mech t' o s3) as [s4 [out|e]]; [|discriminate].
  simpl in *. intros Hp.
  destruct (snd (prune s4 out)) as [r|e] eqn:Er; [|discriminate].
  apply prune_result in Er. subst r.
  destruct (K4 Hp) as [K5 K6]. split.
  - destruct (_mech_sent s1); [|reflexivity].
    rewrite K3 in K5 by (apply K2; reflexivity). discriminate.
  - rewrite prune_mech_sent. exact K6.
Qed.

Lemma step_sent_silent (in_token : option bytes) (s : NegotiateProxy B) :
  _mech_sent (fst (_step_spnego_input C in_token s)) = true ->
  emits_supported (snd (step C _mech in_token s)) = false.
Proof.
  intros H. destruct (emits_supported _) eqn:E; [|reflexivity].
  apply step_emits_supported in E. destruct E as [E _]. congruence.
Qed.

(** Receiving a [NegTokenResp] whose [supported_mech] is present sets
    [_mech_sent] in the input phase, whatever the phase does next. *)
Lemma input_receives_supported (in_token : option bytes) (r : NegTokenResp)
    (s : NegotiateProxy B) :
  decoded C in_token = Some (TokResp r) ->
  truthy_str (supported_mech r) = true ->
  _mech_sent (fst (_step_spnego_input C in_token s)) = true.
Proof.
  unfold decoded, _step_spnego_input.
  destruct in_token as [[|b bs]|]; try discriminate.
  unfold bind at 1, lift.
  destruct (unpack_neg_token C (b :: bs)) as [tok|e]; [|discriminate].
  intros Ht Hs. injection Ht as ->. rewrite Hs.
  unfold bind, when, modify, raise, ret.
  destruct (state_is r NegState.reject && negb (truthy (response_token r)));
    [reflexivity|].
  destruct (state_is r NegState.request_mic); [reflexivity|].
  destruct (state_is r NegState.accept_complete); reflexivity.
Qed.

Lemma run_sent_silent (inputs : list (option bytes)) :
  forall s : NegotiateProxy B,
    _mech_sent s = true ->
    count_supported (snd (run C _mech inputs s)) = 0%nat.
Proof.
  induction inputs as [|i rest IH]; intros s H; [reflexivity|].
  rewrite run_cons. unfold count_supported in *. cbn [snd filter].
  rewrite step_sent_silent by (apply mech_sent_input, H).
  apply IH, mech_sent_kept, H.
Qed.

End Steps.


(** ** The input phase on a [NegTokenResp] *)

Section Input.

Variable B : Backend.
Variable C : Codec.

(** What the input phase does with a decoded [NegTokenResp]. *)
Lemma input_resp (in_token : option bytes) (r : NegTokenResp)
    (s : NegotiateProxy B) :
  decoded C in_token = Some (TokResp r) ->
  _step_spnego_input C in_token s =
  let s1 := if truthy_str (supported_mech r) then set_mech_sent true s else s in
  if state_is r NegState.reject && negb (truthy (response_token r))
  then (s1, Err NegotiationRejected)
  else
    (if state_is r NegState.request_mic then set_mic_required true s1
     else if state_is r NegState.accept_complete then set_complete true s1
          else s1,
     Ok (response_token r, resp_mech_list_mic r)).
Proof.
  unfold decoded, _step_spnego_input.
  destruct in_token as [[|b bs]|]; try discriminate.
  unfold bind at 1, lift.
  destruct (unpack_neg_token C (b :: bs)) as [tok|e]; [|discriminate].
  intros Ht. injection Ht as ->.
  unfold bind, when, modify, raise, ret. cbn [mech_list_mic].
  destruct (truthy_str (supported_mech r));
    destruct (state_is r NegState.reject && negb (truthy (response_token r)));
    try reflexivity;
    destruct (state_is r NegState.request_mic); try reflexivity;
    destruct (state_is r NegState.accept_complete); reflexivity.
Qed.

End Input.

(** ** Bit sets of options *)

Lemma land_lor_zero_l (o a b : Z) :
  Z.land o (Z.lor a b) = 0%Z -> Z.land o a = 0%Z.
Proof.
  intros H. apply Z.bits_inj'. intros n Hn.
  assert (K : Z.testbit (Z.land o (Z.lor a b)) n = false)
    by (rewrite H; apply Z.bits_0).
  rewrite Z.land_spec, Z.lor_spec in K.
  rewrite Z.land_spec, Z.bits_0.
  destruct (Z.testbit o n), (Z.testbit a n); simpl in *; congruence.
Qed.

Lemma land_lor_zero_r (o a b : Z) :
  Z.land o (Z.lor a b) = 0%Z -> Z.land o b = 0%Z.
Proof.
  rewrite Z.lor_comm. apply land_lor_zero_l.
Qed.

Lemma str_in_In (x : string) (l : list string) :
  str_in x l = true <-> In x l.
Proof.
  induction l as [|y l IH]; simpl.
  - split; [discriminate|tauto].
  - rewrite orb_true_iff, IH, String.eqb_eq. split; intros [H|H]; auto.
Qed.

Lemma getattr_all_known (ps : list string) :
  (forall p, In p ps -> p = "kerberos" \/ p = "ntlm") ->
  exists l, getattr_all ps = Ok l.
Proof.
  induction ps as [|p ps IH]; intros H; simpl.
  - eexists; reflexivity.
  - destruct IH as [l Hl]; [intros q Hq; apply H; right; exact Hq|].
    rewrite Hl.
    destruct (H p (or_introl eq_refl)) as [-> | ->]; eexists; reflexivity.
Qed.

(** ** The calls made on the active sub-context *)

Section Recorded.

Variable B : Backend.
Variable C : Codec.

Local Abbreviation RB := (recording B).

(** Case analysis on the outcome of every call that reaches the backend. *)
Ltac backend_cases :=
  repeat match goal with
    | |- context [ctx_verify B ?x ?d ?m] =>
        destruct (ctx_verify B x d m) as [? [[]|?]]; cbn
    | |- context [ctx_sign B ?x ?d] =>
        destruct (ctx_sign B x d) as [? [?|?]]; cbn
    | |- context [ctx_reset_ntlm_crypto_state B ?x ?o] =>
        destruct (ctx_reset_ntlm_crypto_state B x o) as [? [[]|?]]; cbn
    | |- context [ctx_step B ?x ?t] =>
        destruct (ctx_step B x t) as [? [?|?]]; cbn
    end.

Ltac close_calls :=
  first
    [ exists []; rewrite app_nil_r; repeat split;
      first [reflexivity | discriminate]
    | eexists; rewrite <- ?app_assoc;
      split; [reflexivity|];
      cbn; split; [reflexivity|];
      intros; first [discriminate | reflexivity] ].

(** C5. On a backend that records its calls, the MIC phase adds to the calls
    of the active sub-context a sequence in which every verification that
    returns is followed at once by the reset of the incoming counter
    ([outgoing=False]) and every signature that returns by the reset of the
    outgoing counter, with no other reset; when the phase returns, the
    sequence is: verify and reset-incoming if a MIC came in, then sign and
    reset-outgoing if a MIC is required and none was sent. *)
Theorem mic_resets_follow (in_mic : option bytes) (s : NegotiateProxy RB) :
  exists evs,
    calls (fst (_step_spnego_mic C in_mic s)) = calls s ++ evs /\
    resets_follow evs = true /\
    (is_ok (snd (_step_spnego_mic C in_mic s)) = true ->
     evs = mic_calls C in_mic s).
Proof.
  destruct s as [a c l ml i ms sent recv req].
  unfold _step_spnego_mic, mic_calls, verify, sign, _reset_ntlm_crypto_state,
    call_context, bind, get, modify, ret, when, calls, _context.
  cbn.
  destruct l as [|[[m [x log]] t] rest].
  - exists []. cbn.
    destruct in_mic as [[|b bs]|]; cbn;
      try (destruct (req && negb sent); cbn);
      repeat split; try reflexivity; try discriminate.
  - destruct in_mic as [[|b bs]|]; destruct sent, req; cbn;
      backend_cases; close_calls.
Qed.

Lemma token_phase_cached (in_token : option bytes) (s : NegotiateProxy RB)
    (m : GSSMech.t) (c : ctx RB) (cached : option bytes)
    (rest : list (Candidate RB)) :
  _context_list s = (m, c, cached) :: rest ->
  ctx_complete RB c = false ->
  truthy cached = true ->
  snd (_step_spnego_token in_token s) = Ok cached /\
  _context_list (fst (_step_spnego_token in_token s)) = (m, c, None) :: rest /\
  calls (fst (_step_spnego_token in_token s)) = calls s.
Proof.
  destruct s as [a cpl l ml i ms sent recv req]. cbn [_context_list].
  intros -> Hc Ht.
  unfold _step_spnego_token, _requires_mech_list_mic, read_context,
    call_context, bind, get, modify, ret, when, calls, _context.
  cbn. cbn in Hc. rewrite Hc. cbn. rewrite Ht. cbn.
  destruct (ctx_requires_mech_list_mic B (fst c)); cbn; auto.
Qed.

Lemma token_phase_uncached (in_token : option bytes) (s : NegotiateProxy RB)
    (m : GSSMech.t) (c : ctx RB) (cached : option bytes)
    (rest : list (Candidate RB)) :
  _context_list s = (m, c, cached) :: rest ->
  ctx_complete RB c = false ->
  truthy cached = false ->
  snd (_step_spnego_token in_token s) = snd (ctx_step RB c in_token) /\
  _context_list (fst (_step_spnego_token in_token s))
  = (m, fst (ctx_step RB c in_token), cached) :: rest /\
  calls (fst (_step_spnego_token in_token s))
  = calls s ++ [CallStep in_token (is_ok (snd (ctx_step B (fst c) in_token)))].
Proof.
  destruct s as [a cpl l ml i ms sent recv req]. cbn [_context_list].
  intros -> Hc Ht. destruct c as [x log].
  unfold _step_spnego_token, _requires_mech_list_mic, read_context,
    call_context, bind, get, modify, ret, when, calls, _context.
  cbn. cbn in Hc. rewrite Hc. cbn. rewrite Ht. cbn.
  destruct (ctx_step B x in_token) as [x' [o|e]]; cbn; auto.
  destruct (ctx_requires_mech_list_mic B x'); cbn; auto.
Qed.

End Recorded.

(** ** What each phase does to the flags *)

Section Flags.

Variable B : Backend.
Variable C : Codec.
Variable _mech : NegotiateProxy B -> option OID.

(** [_rebuild_context_list] assigns nothing but [_context_list]. *)
Lemma rebuild_frame (mech_list : option (list OID)) (in_token : option bytes)
    (s : NegotiateProxy B) :
  set_context_list [] (fst (_rebuild_context_list mech_list in_token s))
  = set_context_list [] s.
Proof.
  apply (keeps_rebuild_context_list B
           (fun s' => set_context_list [] s' = set_context_list [] s)).
  - intros l s' H. exact H.
  - reflexivity.
Qed.

Lemma frame_fields (s s' : NegotiateProxy B) :
  set_context_list [] s' = set_context_list [] s ->
  _complete s' = _complete s /\ _mic_sent s' = _mic_sent s /\
  _mic_recv s' = _mic_recv s /\ _mic_required s' = _mic_required s /\
  _mech_sent s' = _mech_sent s /\ _init_sent s' = _init_sent s /\
  _mech_list s' = _mech_list s /\ args s' = args s.
Proof.
  destruct s, s'. unfold set_context_list. cbn.
  intros H. injection H. intros. subst. repeat split.
Qed.

Lemma input_flags (in_token : option bytes) (s : NegotiateProxy B) :
  _mic_sent (fst (_step_spnego_input C in_token s)) = _mic_sent s /\
  _complete (fst (_step_spnego_input C in_token s))
  = (_complete s || accepts_complete C in_token) /\
  (forall t m, snd (_step_spnego_input C in_token s) = Ok (t, m) ->
               truthy m = incoming_mic C in_token).
Proof.
  destruct (decoded C in_token) as [[i|i|r]|] eqn:D.
  3:{ rewrite (input_resp B C in_token r s D).
      unfold accepts_complete, incoming_mic. rewrite D. cbn [mech_list_mic].
      unfold state_is.
      destruct (truthy_str (supported_mech r)), (neg_state r) as [[]|];
        cbn; destruct (truthy (response_token r)); cbn;
        rewrite ?orb_false_r, ?orb_true_r;
        repeat split; try reflexivity; intros t m E;
        try discriminate; injection E as <- <-; reflexivity. }
  all: unfold accepts_complete, incoming_mic; rewrite D;
    unfold decoded in D; unfold _step_spnego_input;
    unfold bind, lift, get, modify, ret.
  all: destruct in_token as [[|b bs]|]; try discriminate.
  1,2: destruct (unpack_neg_token C (b :: bs)) as [tok|e]; [|discriminate];
    injection D as ->;
    pose proof (frame_fields _ _
                  (rebuild_frame (Some (_mech_list s)) (init_mech_token i) s))
      as (F1 & F2 & _);
    destruct (_rebuild_context_list (Some (_mech_list s)) (init_mech_token i) s)
      as [s1 [l|e]]; cbn in *;
    rewrite F1, F2, orb_false_r; repeat split; try discriminate;
    intros t m E; injection E as <- <-; reflexivity.
  - pose proof (frame_fields _ _ (rebuild_frame None None s)) as (F1 & F2 & _).
    destruct (_rebuild_context_list None None s) as [s1 [l|e]]; cbn in *;
      rewrite F1, F2, orb_false_r; repeat split; try discriminate;
      intros t m E; injection E as <- <-; reflexivity.
  - destruct (unpack_neg_token C (b :: bs)) as [tok|e]; [discriminate|].
    cbn. rewrite orb_false_r. repeat split; discriminate.
  - pose proof (frame_fields _ _ (rebuild_frame None None s)) as (F1 & F2 & _).
    destruct (_rebuild_context_list None None s) as [s1 [l|e]]; cbn in *;
      rewrite F1, F2, orb_false_r; repeat split; try discriminate;
      intros t m E; injection E as <- <-; reflexivity.
Qed.

Lemma token_flags (in_token : option bytes) (s : NegotiateProxy B) :
  _complete (fst (_step_spnego_token in_token s)) = _complete s /\
  _mic_sent (fst (_step_spnego_token in_token s)) = _mic_sent s.
Proof.
  apply (keeps_step_spnego_token B
           (fun s' => _complete s' = _complete s /\ _mic_sent s' = _mic_sent s));
    intros; cbn; auto.
Qed.

Ltac backend_cases :=
  repeat match goal with
    | |- context [ctx_verify B ?x ?d ?m] =>
        destruct (ctx_verify B x d m) as [? [[]|?]]; cbn
    | |- context [ctx_sign B ?x ?d] =>
        destruct (ctx_sign B x d) as [? [?|?]]; cbn
    | |- context [ctx_reset_ntlm_crypto_state B ?x ?o] =>
        destruct (ctx_reset_ntlm_crypto_state B x o) as [? [[]|?]]; cbn
    end.

(** After a MIC phase that returns, a required MIC has been sent; and the
    phase sets [_complete] only when a MIC came in and one had been sent. *)
Lemma mic_flags (in_mic : option bytes) (s : NegotiateProxy B) :
  is_ok (snd (_step_spnego_mic C in_mic s)) = true ->
  (_mic_required (fst (_step_spnego_mic C in_mic s)) = true ->
   _mic_sent (fst (_step_spnego_mic C in_mic s)) = true) /\
  (_complete (fst (_step_spnego_mic C in_mic s)) = true ->
   _complete s = true \/
   (truthy in_mic = true /\ _mic_sent s = true /\
    _mic_sent (fst (_step_spnego_mic C in_mic s)) = true /\
    _mic_recv (fst (_step_spnego_mic C in_mic s)) = true)).
Proof.
  destruct s as [a c l ml i ms sent recv req].
  unfold _step_spnego_mic, verify, sign, _reset_ntlm_crypto_state,
    call_context, bind, get, modify, ret, when.
  cbn.
  destruct l as [|[[m x] t] rest];
    destruct in_mic as [[|b bs]|]; destruct sent, req, c; cbn;
    backend_cases; intros H; try discriminate H; split; intros; auto;
    try discriminate.
Qed.

(** The output phase leaves the MIC flags and the candidates alone; it sets
    [_complete] only when the active sub-context is complete and it is not the
    case that a MIC was sent and none received. *)
Lemma output_flags (out_token out_mic : option bytes) (s : NegotiateProxy B) :
  _mic_required (fst (_step_spnego_output _mech out_token out_mic s))
  = _mic_required s /\
  _mic_sent (fst (_step_spnego_output _mech out_token out_mic s)) = _mic_sent s /\
  _mic_recv (fst (_step_spnego_output _mech out_token out_mic s)) = _mic_recv s /\
  _context_list (fst (_step_spnego_output _mech out_token out_mic s))
  = _context_list s /\
  (_complete (fst (_step_spnego_output _mech out_token out_mic s)) = true ->
   _complete s = true \/
   (active_complete s = true /\ (_mic_sent s && negb (_mic_recv s)) = false)).
Proof.
  destruct s as [a c l ml i ms sent recv req].
  unfold _step_spnego_output, read_context, bind, get, modify, ret, complete,
    active_complete, _context.
  cbn.
  destruct i, c, ms; cbn; try (repeat split; auto; fail).
  all: destruct l as [|[[m x] t] rest]; cbn; try (repeat split; auto; fail).
  all: destruct (ctx_complete B x); cbn; try (repeat split; auto; fail).
  all: destruct sent, recv; cbn; repeat split; auto.
Qed.

Lemma prune_flags {A} (s : NegotiateProxy B) (out : A) :
  _complete (fst (prune s out)) = _complete s /\
  mic_settled (fst (prune s out)) = mic_settled s /\
  active_complete (fst (prune s out)) = active_complete s.
Proof.
  unfold prune, complete, mic_settled, active_complete, _context.
  destruct (_complete s) eqn:E; [|auto].
  destruct (_context_list s) as [|[[m x] t] rest] eqn:L; cbn; rewrite ?L; auto.
Qed.

End Flags.
(** ** Claims *)

(** C8. Once [complete] is true it stays true: after any further sequence of
    calls of [step], whether they return or raise, [complete] is still
    true. *)
Theorem complete_is_irreversible (B : Backend) (C : Codec)
    (_mech : NegotiateProxy B -> option OID)
    (inputs : list (option bytes)) (s : NegotiateProxy B) :
  complete s = true -> complete (fst (run C _mech inputs s)) = true.
Proof.
  intros H.
  apply (keeps_run B C _mech (fun s => complete s = true));
    intros; cbn; auto.
Qed.

(** C4. In the replies of any sequence of calls of [step], [supported_mech]
    is set in at most one packed [NegTokenResp]; it is set in none when
    [_mech_sent] already holds, which is the case after the first emission;
    and it is set in none from the call on that receives a [NegTokenResp]
    carrying a [supported_mech]. *)
Theorem supported_mech_at_most_once (B : Backend) (C : Codec)
    (_mech : NegotiateProxy B -> option OID)
    (inputs : list (option bytes)) (s : NegotiateProxy B) :
  (count_supported (snd (run C _mech inputs s)) <= 1)%nat /\
  (_mech_sent s = true ->
   count_supported (snd (run C _mech inputs s)) = 0%nat) /\
  (forall (i : option bytes) (r : NegTokenResp),
      decoded C i = Some (TokResp r) ->
      truthy_str (supported_mech r) = true ->
      count_supported (snd (run C _mech (i :: inputs) s)) = 0%nat).
Proof.
  split; [|split].
  - revert s. induction inputs as [|i rest IH]; intros s;
      [unfold count_supported; simpl; lia|].
    rewrite run_cons. unfold count_supported in *. cbn [snd filter].
    destruct (emits_supported (snd (step C _mech i s))) eqn:E.
    + apply step_emits_supported in E. destruct E as [_ E].
      pose proof (run_sent_silent B C _mech rest _ E) as Z.
      unfold count_supported in Z. cbn [length]. rewrite Z. lia.
    + apply IH.
  - apply run_sent_silent.
  - intros i r Hd Hs. rewrite run_cons.
    unfold count_supported. cbn [snd filter].
    pose proof (input_receives_supported B C i r s Hd Hs) as H1.
    rewrite (step_sent_silent B C _mech i s H1).
    apply run_sent_silent.
    destruct (_mech_sent (fst (step C _mech i s))) eqn:E; [reflexivity|].
    exfalso.
    assert (K : _mech_sent (fst (step C _mech i s)) = true); [|congruence].
    clear E. rewrite step_phases.
    destruct (_step_spnego_input C i s) as [s1 [[t m]|e]]; [|exact H1].
    simpl in H1.
    pose proof (mech_sent_token B t s1 H1) as K2.
    destruct (_step_spnego_token t s1) as [s2 [t'|e]]; [|exact K2].
    pose proof (mech_sent_mic B C m s2 K2) as K3.
    destruct (_step_spnego_mic C m s2) as [s3 [o|e]]; [|exact K3].
    pose proof (keeps_step_spnego_output B _mech (fun s => _mech_sent s = true))
      as K4.
    specialize (K4 ltac:(intros; cbn; auto) ltac:(intros; cbn; auto)
                   ltac:(intros; cbn; auto) t' o s3 K3).
    destruct (_step_spnego_output _mech t' o s3) as [s4 [out|e]]; [|exact K4].
    rewrite prune_mech_sent. exact K4.
Qed.

(** C7. A step whose input decodes to a [NegTokenResp] with
    [neg_state = reject] raises the rejection when the [response_token] is
    absent or empty; when a [response_token] is present the input phase
    returns it, with the [mech_list_mic], and does not raise. *)
Theorem rejection_without_token (B : Backend) (C : Codec)
    (_mech : NegotiateProxy B -> option OID)
    (in_token : option bytes) (r : NegTokenResp) (s : NegotiateProxy B) :
  decoded C in_token = Some (TokResp r) ->
  neg_state r = Some NegState.reject ->
  (truthy (response_token r) = false ->
   snd (step C _mech in_token s) = Err NegotiationRejected) /\
  (truthy (response_token r) = true ->
   snd (_step_spnego_input C in_token s)
   = Ok (response_token r, resp_mech_list_mic r)).
Proof.
  intros Hd Hr.
  assert (R : state_is r NegState.reject = true)
    by (unfold state_is; rewrite Hr; reflexivity).
  assert (Q : state_is r NegState.request_mic = false)
    by (unfold state_is; rewrite Hr; reflexivity).
  assert (A : state_is r NegState.accept_complete = false)
    by (unfold state_is; rewrite Hr; reflexivity).
  split; intros Ht.
  - rewrite step_phases, (input_resp B C in_token r s Hd), R, Ht. reflexivity.
  - rewrite (input_resp B C in_token r s Hd), R, Ht, Q, A. reflexivity.
Qed.

(** C9. With no [use_*] bit set in the options, a protocol whose lower-cased
    name is none of kerberos, negotiate, ntlm and is advertised neither by
    SSPI nor by GSSAPI makes [_new_context] raise the [ValueError] for an
    invalid protocol: no proxy class is selected. *)
Theorem unknown_protocol_fails (lower : string -> string)
    (use_sspi use_gssapi use_negotiate use_ntlm : Z)
    (sspi gssapi : Z -> list string)
    (context_req : Z) (protocol : string) (options : Z) (usage : Auth.pyval) :
  Z.land options
         (Auth.use_flags use_sspi use_gssapi use_negotiate use_ntlm) = 0%Z ->
  lower protocol <> "kerberos" ->
  lower protocol <> "negotiate" ->
  lower protocol <> "ntlm" ->
  ~ In (lower protocol) (sspi context_req) ->
  ~ In (lower protocol) (gssapi context_req) ->
  Auth._new_context lower use_sspi use_gssapi use_negotiate use_ntlm
                    sspi gssapi context_req protocol (Auth.PyInt options) usage
  = Err (Auth.invalid_protocol protocol).
Proof.
  intros H Hk Hn Ht Hs Hg.
  unfold Auth._new_context, Auth.py_and. rewrite H.
  unfold Auth.use_flags in H.
  pose proof (land_lor_zero_r _ _ _ H) as H4.
  apply land_lor_zero_l in H.
  pose proof (land_lor_zero_r _ _ _ H) as H3.
  apply land_lor_zero_l in H.
  pose proof (land_lor_zero_r _ _ _ H) as H2.
  apply land_lor_zero_l in H.
  rewrite H, H2, H3, H4. cbn [Z.eqb negb orb andb].
  apply String.eqb_neq in Hk, Hn, Ht. rewrite Hk, Hn, Ht.
  destruct (str_in (lower protocol) (sspi context_req)) eqn:E1;
    [apply str_in_In in E1; contradiction|].
  destruct (str_in (lower protocol) (gssapi context_req)) eqn:E2;
    [apply str_in_In in E2; contradiction|].
  reflexivity.
Qed.

(** [available_protocols] always contains ntlm and negotiate, and has
    kerberos at index 0 exactly when GSSAPI advertises kerberos; the list of
    available mechanisms that [_rebuild_context_list] computes contains the
    NTLM mechanism whenever it is computed, and it is computed whenever
    GSSAPI advertises nothing but kerberos, negotiate and ntlm. *)
Theorem ntlm_always_offered (B : Backend) (req : Z) :
  (In "ntlm" (available_protocols B req) /\
   In "negotiate" (available_protocols B req)) /\
  (nth_error (available_protocols B req) 0 = Some "kerberos" <->
   In "kerberos" (gssapi_available_protocols B req)) /\
  (forall l, available_mechs B req = Ok l -> In GSSMech.ntlm l) /\
  ((forall p, In p (gssapi_available_protocols B req) ->
              p = "kerberos" \/ p = "negotiate" \/ p = "ntlm") ->
   exists l, available_mechs B req = Ok l /\ In GSSMech.ntlm l).
Proof.
  assert (N : forall l, available_mechs B req = Ok l -> In GSSMech.ntlm l).
  { unfold available_mechs. intros l.
    destruct (getattr_all (gssapi_protocols B req)) as [l0|e]; [|discriminate].
    intros E. injection E as <-. apply in_or_app. right. left. reflexivity. }
  split; [|split; [|split]].
  - unfold available_protocols.
    destruct (str_in "kerberos" (gssapi_available_protocols B req));
      simpl; tauto.
  - rewrite <- str_in_In. unfold available_protocols.
    destruct (str_in "kerberos" (gssapi_available_protocols B req)); simpl.
    + tauto.
    + split; discriminate.
  - exact N.
  - intros H.
    destruct (getattr_all_known (gssapi_protocols B req)) as [l0 Hl].
    { intros p Hp. unfold gssapi_protocols in Hp.
      apply filter_In in Hp. destruct Hp as [Hp Hq].
      destruct (H p Hp) as [E|[E|E]]; auto.
      subst p. discriminate. }
    exists (l0 ++ [GSSMech.ntlm]).
    assert (E : available_mechs B req = Ok (l0 ++ [GSSMech.ntlm]))
      by (unfold available_mechs; rewrite Hl; reflexivity).
    split; [exact E|apply N, E].
Qed.

(** C6. When the active sub-context is not complete: if its candidate holds a
    cached first token (a non-empty one), the inner-token phase returns that
    token, empties the slot, leaves the sub-context as it was and makes no
    call on it; if the slot is empty, the phase makes exactly one call, of the
    sub-context's [step] with the incoming inner token, and its outcome is the
    outcome of that call. *)
Theorem cached_first_token (B : Backend) (in_token : option bytes)
    (s : NegotiateProxy (recording B))
    (m : GSSMech.t) (c : ctx (recording B)) (cached : option bytes)
    (rest : list (Candidate (recording B))) :
  _context_list s = (m, c, cached) :: rest ->
  ctx_complete (recording B) c = false ->
  (truthy cached = true ->
   snd (_step_spnego_token in_token s) = Ok cached /\
   _context_list (fst (_step_spnego_token in_token s)) = (m, c, None) :: rest /\
   calls (fst (_step_spnego_token in_token s)) = calls s) /\
  (truthy cached = false ->
   snd (_step_spnego_token in_token s) = snd (ctx_step (recording B) c in_token) /\
   _context_list (fst (_step_spnego_token in_token s))
   = (m, fst (ctx_step (recording B) c in_token), cached) :: rest /\
   calls (fst (_step_spnego_token in_token s))
   = calls s
     ++ [CallStep in_token (is_ok (snd (ctx_step B (fst c) in_token)))]).
Proof.
  intros Hl Hc. split; intros Ht.
  - apply token_phase_cached; assumption.
  - apply token_phase_uncached; assumption.
Qed.

(** C1, as the code has it. A step that receives a [NegTokenResp] with
    [neg_state = accept_complete] ends with [complete] true, whatever the
    sub-context and the MIC flags are.  A step on any other input that
    returns and turns [complete] from false to true ends with
    [mic_required] implying [mic_sent] and [mic_recv], and with the active
    sub-context complete unless [complete] was set by the MIC phase, on an
    incoming MIC after a MIC had been sent. *)
Theorem completion_of_a_step (B : Backend) (C : Codec)
    (_mech : NegotiateProxy B -> option OID)
    (in_token : option bytes) (s : NegotiateProxy B) :
  (accepts_complete C in_token = true ->
   complete (fst (step C _mech in_token s)) = true) /\
  (accepts_complete C in_token = false ->
   complete s = false ->
   is_ok (snd (step C _mech in_token s)) = true ->
   complete (fst (step C _mech in_token s)) = true ->
   mic_settled (fst (step C _mech in_token s)) = true /\
   (active_complete (fst (step C _mech in_token s)) = true \/
    (incoming_mic C in_token = true /\ _mic_sent s = true))).
Proof.
  split.
  - intros Ha.
    assert (K : complete (fst (_step_spnego_input C in_token s)) = true).
    { destruct (input_flags B C in_token s) as (_ & E & _).
      unfold complete. rewrite E, Ha. apply orb_true_r. }
    revert K. rewrite step_phases.
    destruct (_step_spnego_input C in_token s) as [s1 [[t m]|e]]; [|auto].
    cbn [fst]. intros K1.
    pose proof (keeps_step_spnego_token B (fun s => complete s = true)
                  ltac:(intros; cbn; auto) ltac:(intros; cbn; auto) t s1 K1)
      as K2.
    destruct (_step_spnego_token t s1) as [s2 [t'|e]]; [|exact K2].
    pose proof (keeps_step_spnego_mic B C (fun s => complete s = true)) as K3.
    specialize (K3 ltac:(intros; cbn; auto) ltac:(intros; cbn; auto)
                   ltac:(intros; cbn; auto) ltac:(intros; cbn; auto)
                   ltac:(intros; cbn; auto) m s2 K2).
    destruct (_step_spnego_mic C m s2) as [s3 [o|e]]; [|exact K3].
    pose proof (keeps_step_spnego_output B _mech (fun s => complete s = true))
      as K4.
    specialize (K4 ltac:(intros; cbn; auto) ltac:(intros; cbn; auto)
                   ltac:(intros; cbn; auto) t' o s3 K3).
    destruct (_step_spnego_output _mech t' o s3) as [s4 [out|e]]; [|exact K4].
    cbn [fst] in *.
    destruct (prune_flags B s4 out) as (E & _). unfold complete in *.
    rewrite E. exact K4.
  - intros Ha Hs. rewrite step_phases.
    destruct (input_flags B C in_token s) as (I1 & I2 & I3).
    destruct (_step_spnego_input C in_token s) as [s1 [[t m]|e]];
      [|discriminate].
    specialize (I3 t m eq_refl). cbn [fst] in I1, I2.
    destruct (token_flags B t s1) as (T1 & T2).
    destruct (_step_spnego_token t s1) as [s2 [t'|e]]; [|discriminate].
    cbn [fst] in T1, T2.
    pose proof (mic_flags B C m s2) as M.
    destruct (_step_spnego_mic C m s2) as [s3 [o|e]]; [|discriminate].
    destruct (M eq_refl) as (M1 & M2). cbn [fst] in M1, M2.
    destruct (output_flags B _mech t' o s3) as (O1 & O2 & O3 & O4 & O5).
    destruct (_step_spnego_output _mech t' o s3) as [s4 [out|e]];
      [|discriminate].
    cbn [fst] in O1, O2, O3, O4, O5.
    destruct (prune_flags B s4 out) as (P1 & P2 & P3).
    intros _ Hc. unfold complete in *. rewrite P1 in Hc.
    rewrite P2, P3.
    assert (N2 : _complete s2 = false)
      by (rewrite T1, I2, Hs, Ha; reflexivity).
    assert (S4 : active_complete s4 = active_complete s3)
      by (unfold active_complete, _context; rewrite O4; reflexivity).
    unfold mic_settled. rewrite O1, O2, O3, S4.
    destruct (O5 Hc) as [Hc3|[Ac Hm]].
    + destruct (M2 Hc3) as [Hc2|(Tm & Sm & S3 & R3)]; [congruence|].
      rewrite S3, R3, orb_true_r. split; [reflexivity|].
      right. rewrite <- I3, <- I1, <- T2. auto.
    + split; [|left; exact Ac].
      destruct (_mic_required s3); [|reflexivity].
      rewrite (M1 eq_refl) in *. cbn in Hm.
      apply negb_false_iff in Hm. rewrite Hm. reflexivity.
Qed.

(** C1, counterexample. An initiator sends its first token and receives a
    reply with [neg_state = accept_complete]; both calls of [step] return.
    With a mechanism of three legs the object is then complete while its
    active sub-context is not; with a mechanism that requires the
    mechListMIC it is complete with [mic_required] set and no MIC
    received. *)
Lemma early_accept_breaks_invariant :
  (reachable Scenario.codec Toy._mech Toy.initiator
             (Runs.after_early_accept Scenario.three_legs) /\
   map is_ok (snd (run Scenario.codec Toy._mech [None; Some Toy.early_accept]
                       (Scenario.start Scenario.three_legs))) = [true; true] /\
   complete (Runs.after_early_accept Scenario.three_legs) = true /\
   active_complete (Runs.after_early_accept Scenario.three_legs) = false /\
   ~ complete_invariant (Runs.after_early_accept Scenario.three_legs)) /\
  (reachable Scenario.codec Toy._mech Toy.initiator
             (Runs.after_early_accept Scenario.ntlm_only) /\
   complete (Runs.after_early_accept Scenario.ntlm_only) = true /\
   _mic_required (Runs.after_early_accept Scenario.ntlm_only) = true /\
   _mic_recv (Runs.after_early_accept Scenario.ntlm_only) = false /\
   ~ complete_invariant (Runs.after_early_accept Scenario.ntlm_only)).
Proof.
  assert (R : forall B, reachable Scenario.codec Toy._mech Toy.initiator
                                  (Runs.after_early_accept B)).
  { intros B. unfold Runs.after_early_accept. rewrite !run_cons. cbn [run fst].
    apply reach_step, reach_step, reach_init. }
  split.
  - split; [apply R|]. repeat split; try reflexivity.
    intros H. destruct (H eq_refl) as [H1 _]. discriminate H1.
  - split; [apply R|]. repeat split; try reflexivity.
    intros H. destruct (H eq_refl) as [_ H2]. discriminate H2.
Qed.

(** C1, instance: the reply with [accept_complete] completes the initiator
    at once; a reply with [accept_incomplete] that lets the sub-context
    finish completes it in the output phase, with the sub-context complete. *)
Lemma completion_of_a_step_witness :
  (accepts_complete Scenario.codec (Some Toy.early_accept) = true /\
   complete (fst (step Scenario.codec Toy._mech (Some Toy.early_accept)
                       (Runs.after_first Scenario.three_legs))) = true) /\
  (accepts_complete Scenario.codec (Some Toy.challenge) = false /\
   complete (Runs.after_first Scenario.two_legs) = false /\
   mic_settled (fst (step Scenario.codec Toy._mech (Some Toy.challenge)
                          (Runs.after_first Scenario.two_legs))) = true /\
   (active_complete (fst (step Scenario.codec Toy._mech (Some Toy.challenge)
                               (Runs.after_first Scenario.two_legs))) = true \/
    (incoming_mic Scenario.codec (Some Toy.challenge) = true /\
     _mic_sent (Runs.after_first Scenario.two_legs) = true))).
Proof.
  split.
  - split; [reflexivity|].
    apply (proj1 (completion_of_a_step Scenario.three_legs Scenario.codec
                    Toy._mech (Some Toy.early_accept)
                    (Runs.after_first Scenario.three_legs))).
    reflexivity.
  - split; [reflexivity|]. split; [reflexivity|].
    apply (proj2 (completion_of_a_step Scenario.two_legs Scenario.codec
                    Toy._mech (Some Toy.challenge)
                    (Runs.after_first Scenario.two_legs)));
      reflexivity.
Defined.

(** C2, the code at the failing input. An initiator whose only mechanism is
    NTLM, which is both the first entry of its mechanism list and the active
    mechanism, answers the challenge with a [NegTokenResp] whose [neg_state]
    is [request_mic]. *)
Lemma initiator_emits_request_mic :
  usage (args (Runs.after_first Scenario.ntlm_only)) = "initiate" /\
  hd_error (_mech_list (Runs.after_first Scenario.ntlm_only))
  = Some (GSSMech.value GSSMech.ntlm) /\
  map (fun c => fst (fst c)) (_context_list (Runs.after_first Scenario.ntlm_only))
  = [GSSMech.ntlm] /\
  snd (step Scenario.codec Toy._mech (Some Toy.challenge)
            (Runs.after_first Scenario.ntlm_only))
  = Ok (Some (PackResp NegState.request_mic
                       (Some [Byte.x4e; Byte.x4e]) None
                       (Some (Toy.tag ++ [Byte.x30; Byte.x06])))) /\
  emits_request_mic
    (snd (step Scenario.codec Toy._mech (Some Toy.challenge)
               (Runs.after_first Scenario.ntlm_only))) = true.
Proof. repeat split. Qed.

(** C3, the code at the failing input. GSSAPI advertises kerberos and ntlm
    and fails to establish a context for either: [_rebuild_context_list]
    returns an empty mechanism list, leaves the candidate list empty and
    raises nothing; the step then fails on the missing sub-context. *)
Lemma all_candidates_fail_silently :
  snd (_rebuild_context_list None None (Scenario.start Scenario.gssapi_failing))
  = Ok [] /\
  _context_list
    (fst (_rebuild_context_list None None
            (Scenario.start Scenario.gssapi_failing))) = [] /\
  snd (step Scenario.codec Toy._mech None
            (Scenario.start Scenario.gssapi_failing)) = Err AttributeError.
Proof. repeat split. Qed.

(** C8, instance: the initiator completed by an early [accept_complete]
    stays complete over two further calls. *)
Lemma complete_is_irreversible_witness :
  complete (Runs.after_early_accept Scenario.three_legs) = true /\
  complete (fst (run Scenario.codec Toy._mech [Some Toy.challenge; None]
                     (Runs.after_early_accept Scenario.three_legs))) = true.
Proof.
  split; [reflexivity|].
  apply (complete_is_irreversible Scenario.three_legs Scenario.codec Toy._mech
           [Some Toy.challenge; None]
           (Runs.after_early_accept Scenario.three_legs)).
  reflexivity.
Defined.

(** C4, instance: an acceptor over two calls; its state after the first
    reply; an initiator that receives [supported_mech] with the challenge. *)
Lemma supported_mech_at_most_once_witness :
  (count_supported
     (snd (run Scenario.codec Toy._mech [Some Toy.offer; Some Toy.authenticate]
               (__init__ Scenario.ntlm_only Toy.acceptor))) <= 1)%nat /\
  (_mech_sent (Runs.after_offer Scenario.ntlm_only) = true /\
   count_supported
     (snd (run Scenario.codec Toy._mech [Some Toy.authenticate]
               (Runs.after_offer Scenario.ntlm_only))) = 0%nat) /\
  (decoded Scenario.codec (Some Toy.challenge)
   = Some (TokResp (mkResp (Some NegState.accept_incomplete)
                           (Some (GSSMech.value GSSMech.ntlm))
                           (Some [Byte.x43]) None)) /\
   count_supported
     (snd (run Scenario.codec Toy._mech [Some Toy.challenge; None]
               (Runs.after_first Scenario.ntlm_only))) = 0%nat).
Proof.
  split; [|split].
  - apply (proj1 (supported_mech_at_most_once Scenario.ntlm_only
                    Scenario.codec Toy._mech
                    [Some Toy.offer; Some Toy.authenticate]
                    (__init__ Scenario.ntlm_only Toy.acceptor))).
  - split; [reflexivity|].
    apply (proj1 (proj2 (supported_mech_at_most_once Scenario.ntlm_only
                           Scenario.codec Toy._mech [Some Toy.authenticate]
                           (Runs.after_offer Scenario.ntlm_only)))).
    reflexivity.
  - split; [reflexivity|].
    apply (proj2 (proj2
             (supported_mech_at_most_once Scenario.ntlm_only Scenario.codec
                Toy._mech [None] (Runs.after_first Scenario.ntlm_only)))
             (Some Toy.challenge) _ eq_refl eq_refl).
Defined.

(** The acceptor of that run does set [supported_mech], once. *)
Example acceptor_sets_supported_mech_once :
  count_supported
    (snd (run Scenario.codec Toy._mech [Some Toy.offer; Some Toy.authenticate]
              (__init__ Scenario.ntlm_only Toy.acceptor))) = 1%nat.
Proof. reflexivity. Qed.

(** C5, instance: the acceptor that receives a mechListMIC and owes one
    verifies, resets the incoming counter, signs and resets the outgoing
    counter, in this order. *)
Lemma mic_resets_follow_witness :
  is_ok (snd (_step_spnego_mic Scenario.codec
                (Some (Toy.tag ++ [Byte.x30; Byte.x06]))
                (Runs.before_mic (recording Scenario.ntlm_only)))) = true /\
  exists evs : list Call,
    calls (fst (_step_spnego_mic Scenario.codec
                  (Some (Toy.tag ++ [Byte.x30; Byte.x06]))
                  (Runs.before_mic (recording Scenario.ntlm_only))))
    = calls (Runs.before_mic (recording Scenario.ntlm_only)) ++ evs /\
    resets_follow evs = true /\
    evs = [CallVerify [Byte.x30; Byte.x06] (Toy.tag ++ [Byte.x30; Byte.x06]) true;
           CallReset false true;
           CallSign [Byte.x30; Byte.x06] true;
           CallReset true true].
Proof.
  split; [reflexivity|].
  destruct (mic_resets_follow Scenario.ntlm_only Scenario.codec
              (Some (Toy.tag ++ [Byte.x30; Byte.x06]))
              (Runs.before_mic (recording Scenario.ntlm_only)))
    as (evs & H1 & H2 & H3).
  exists evs. split; [exact H1|]. split; [exact H2|].
  rewrite (H3 eq_refl). reflexivity.
Defined.

(** C6, instance: the first call of an initiator returns the token cached
    while the candidates were built; with the slot emptied, the phase calls
    the sub-context. *)
Lemma cached_first_token_witness :
  (_context_list (Runs.candidates_built (recording Scenario.ntlm_only))
   = [(GSSMech.ntlm, (Toy.mkState 1 2 true, [CallStep None true]),
       Some [Byte.x4e])] /\
   snd (_step_spnego_token None
          (Runs.candidates_built (recording Scenario.ntlm_only)))
   = Ok (Some [Byte.x4e]) /\
   calls (fst (_step_spnego_token None
                 (Runs.candidates_built (recording Scenario.ntlm_only))))
   = [CallStep None true]) /\
  (_context_list (Runs.after_first (recording Scenario.ntlm_only))
   = [(GSSMech.ntlm, (Toy.mkState 1 2 true, [CallStep None true]), None)] /\
   snd (_step_spnego_token (Some [Byte.x43])
          (Runs.after_first (recording Scenario.ntlm_only)))
   = Ok (Some [Byte.x4e; Byte.x4e]) /\
   calls (fst (_step_spnego_token (Some [Byte.x43])
                 (Runs.after_first (recording Scenario.ntlm_only))))
   = [CallStep None true; CallStep (Some [Byte.x43]) true]).
Proof.
  split.
  - split; [reflexivity|].
    destruct (proj1 (cached_first_token Scenario.ntlm_only None
                       (Runs.candidates_built (recording Scenario.ntlm_only))
                       GSSMech.ntlm (Toy.mkState 1 2 true, [CallStep None true])
                       (Some [Byte.x4e]) [] eq_refl eq_refl) eq_refl)
      as (H1 & _ & H3).
    split; [exact H1|exact H3].
  - split; [reflexivity|].
    destruct (proj2 (cached_first_token Scenario.ntlm_only (Some [Byte.x43])
                       (Runs.after_first (recording Scenario.ntlm_only))
                       GSSMech.ntlm (Toy.mkState 1 2 true, [CallStep None true])
                       None [] eq_refl eq_refl) eq_refl)
      as (H1 & _ & H3).
    split; [exact H1|exact H3].
Defined.

(** C7, instance: the bare [reject] makes the second call of the initiator
    raise the rejection. *)
Lemma rejection_without_token_witness :
  decoded Scenario.codec (Some Toy.rejection)
  = Some (TokResp (mkResp (Some NegState.reject) None None None)) /\
  snd (step Scenario.codec Toy._mech (Some Toy.rejection)
            (Runs.after_first Scenario.ntlm_only))
  = Err (Exception "Received SPNEGO rejection").
Proof.
  split; [reflexivity|].
  apply (proj1 (rejection_without_token Scenario.ntlm_only Scenario.codec
                  Toy._mech (Some Toy.rejection)
                  (mkResp (Some NegState.reject) None None None)
                  (Runs.after_first Scenario.ntlm_only) eq_refl eq_refl)).
  reflexivity.
Defined.

(** C9, instance: the protocol [DIGEST], with a capability bit and no
    [use_*] bit in the options, where SSPI is absent and GSSAPI advertises
    kerberos. *)
Lemma unknown_protocol_fails_witness :
  Z.land 16 (Auth.use_flags 1 2 4 8) = 0%Z /\
  Auth._new_context Auth.ascii_lower 1 2 4 8
                    (fun _ => []) (fun _ => ["kerberos"]) 0 "DIGEST"
                    (Auth.PyInt 16) (Auth.PyStr "initiate")
  = Err (ValueError
           "Invalid protocol specified 'DIGEST', must be kerberos, negotiate, or ntlm").
Proof.
  split; [reflexivity|].
  apply (unknown_protocol_fails Auth.ascii_lower 1 2 4 8
           (fun _ => []) (fun _ => ["kerberos"]) 0 "DIGEST" 16
           (Auth.PyStr "initiate")).
  - reflexivity.
  - discriminate.
  - discriminate.
  - discriminate.
  - simpl. tauto.
  - simpl. intros [H|H]; [discriminate H|exact H].
Defined.

(** Instance: a GSSAPI provider that advertises kerberos, negotiate and
    ntlm. *)
Lemma ntlm_always_offered_witness :
  available_protocols Scenario.gssapi_failing 0 = ["kerberos"; "ntlm"; "negotiate"] /\
  exists l, available_mechs Scenario.gssapi_failing 0 = Ok l /\ In GSSMech.ntlm l.
Proof.
  split; [reflexivity|].
  apply (proj2 (proj2 (proj2 (ntlm_always_offered Scenario.gssapi_failing 0)))).
  simpl. intros p [H|[H|[H|H]]]; subst; tauto.
Defined.

(** As [client] and [server] pass them, the usage lands in the place of the
    options: every call ends in a [TypeError], before a protocol is looked
    at. *)
Remark client_and_server_raise (lower : string -> string)
    (use_sspi use_gssapi use_negotiate use_ntlm : Z)
    (sspi gssapi : Z -> list string)
    (context_req : Z) (protocol : string) (options : Z) :
  Auth.client lower use_sspi use_gssapi use_negotiate use_ntlm sspi gssapi
              context_req protocol options = Err TypeError /\
  Auth.server lower use_sspi use_gssapi use_negotiate use_ntlm sspi gssapi
              context_req protocol options = Err TypeError.
Proof. split; reflexivity. Qed.

(** * Further properties of the proxy *)

Section Further.

Variable B : Backend.
Variable C : Codec.
Variable _mech : NegotiateProxy B -> option OID.

(** ** The candidates through the phases *)

Lemma token_candidates (in_token : option bytes) (s : NegotiateProxy B) :
  mechs_of (_context_list (fst (_step_spnego_token in_token s)))
  = mechs_of (_context_list s) /\
  _mech_list (fst (_step_spnego_token in_token s)) = _mech_list s /\
  _init_sent (fst (_step_spnego_token in_token s)) = _init_sent s /\
  (is_ok (snd (_step_spnego_token in_token s)) = true ->
   _context_list (fst (_step_spnego_token in_token s)) <> []).
Proof.
  destruct s as [a c l ml i ms sent recv req].
  unfold _step_spnego_token, _requires_mech_list_mic, read_context,
    call_context, bind, get, modify, ret, raise, when, _context.
  cbn.
  destruct l as [|[[m x] t] rest]; cbn.
  - repeat split; discriminate.
  - destruct (ctx_complete B x); cbn; [repeat split; discriminate|].
    destruct (truthy t); cbn.
    + destruct (ctx_requires_mech_list_mic B x); cbn; repeat split;
        discriminate.
    + destruct (ctx_step B x in_token) as [x' [o|e]]; cbn;
        [destruct (ctx_requires_mech_list_mic B x'); cbn|];
        repeat split; discriminate.
Qed.

Lemma mic_candidates (in_mic : option bytes) (s : NegotiateProxy B) :
  mechs_of (_context_list (fst (_step_spnego_mic C in_mic s)))
  = mechs_of (_context_list s) /\
  _mech_list (fst (_step_spnego_mic C in_mic s)) = _mech_list s /\
  _init_sent (fst (_step_spnego_mic C in_mic s)) = _init_sent s.
Proof.
  destruct s as [a c l ml i ms sent recv req].
  unfold _step_spnego_mic, verify, sign, _reset_ntlm_crypto_state,
    call_context, bind, get, modify, ret, when.
  cbn.
  destruct l as [|[[m x] t] rest];
    destruct in_mic as [[|b bs]|]; destruct sent, req; cbn;
    repeat match goal with
      | |- context [ctx_verify B ?x ?d ?m] =>
          destruct (ctx_verify B x d m) as [? [[]|?]]; cbn
      | |- context [ctx_sign B ?x ?d] =>
          destruct (ctx_sign B x d) as [? [?|?]]; cbn
      | |- context [ctx_reset_ntlm_crypto_state B ?x ?o] =>
          destruct (ctx_reset_ntlm_crypto_state B x o) as [? [[]|?]]; cbn
      end;
    repeat split.
Qed.

Lemma output_candidates (out_token out_mic : option bytes)
    (s : NegotiateProxy B) :
  _context_list (fst (_step_spnego_output _mech out_token out_mic s))
  = _context_list s /\
  _mech_list (fst (_step_spnego_output _mech out_token out_mic s))
  = _mech_list s.
Proof.
  destruct s as [a c l ml i ms sent recv req].
  unfold _step_spnego_output, read_context, bind, get, modify, ret, complete,
    _context.
  cbn.
  destruct i, c, ms; cbn; try (split; reflexivity).
  all: destruct l as [|[[m x] t] rest]; cbn; try (split; reflexivity).
  all: destruct (ctx_complete B x); cbn; try (split; reflexivity).
  all: destruct (sent && negb recv); cbn; split; reflexivity.
Qed.

(** What the output phase returns, by cases on the flags it reads. *)
Lemma output_result (out_token out_mic : option bytes) (s : NegotiateProxy B) :
  forall out,
    snd (_step_spnego_output _mech out_token out_mic s) = Ok out ->
    let s' := fst (_step_spnego_output _mech out_token out_mic s) in
    _init_sent s' = true /\
    match out with
    | None => _init_sent s = true /\ _complete s = true /\ _complete s' = true
    | Some (PackInit l t m) =>
        _init_sent s = false /\ usage (args s) = "initiate" /\
        l = _mech_list s /\ t = out_token /\ m = out_mic /\
        _complete s' = _complete s
    | Some (PackInit2 l t m) =>
        _init_sent s = false /\ usage (args s) <> "initiate" /\
        l = _mech_list s /\ t = out_token /\ m = out_mic /\
        _complete s' = _complete s
    | Some (PackResp st t sm m) =>
        _init_sent s = true /\ _complete s = false /\
        t = out_token /\ m = out_mic /\
        match st with
        | NegState.accept_complete =>
            _complete s' = true /\ active_complete s = true /\
            (_mic_sent s && negb (_mic_recv s)) = false
        | NegState.accept_incomplete =>
            _complete s' = false /\ active_complete s = false
        | NegState.request_mic =>
            _complete s' = false /\ active_complete s = true /\
            _mic_sent s = true /\ _mic_recv s = false
        | NegState.reject => False
        end
    end.
Proof.
  destruct s as [a c l ml i ms sent recv req].
  unfold _step_spnego_output, read_context, bind, get, modify, ret, complete,
    active_complete, _context.
  cbn.
  destruct i; cbn.
  2:{ destruct (String.eqb_spec (usage a) "initiate");
        intros out E; injection E as <-; cbn; repeat split; auto. }
  destruct c; cbn; [intros out E; injection E as <-; cbn; auto|].
  destruct ms; cbn;
    (destruct l as [|[[m x] t] rest]; cbn; [discriminate|]);
    (destruct (ctx_complete B x); cbn;
     [destruct sent, recv; cbn|]);
    intros out E; injection E as <-; cbn; repeat split; auto.
Qed.

Lemma prune_frame {A} (s : NegotiateProxy B) (out : A) :
  set_context_list [] (fst (prune s out)) = set_context_list [] s /\
  (snd (prune s out) = Ok out \/ snd (prune s out) = Err IndexError) /\
  (is_ok (snd (prune s out)) = true ->
   _context_list s <> [] ->
   _context_list (fst (prune s out))
   = if complete s then firstn 1 (_context_list s) else _context_list s).
Proof.
  unfold prune. destruct (complete s); [|cbn; auto].
  destruct (_context_list s) as [|c l]; cbn.
  - repeat split; auto. discriminate.
  - repeat split; auto.
Qed.

(** A step that returns went through its four phases, each of which
    returned. *)
Lemma step_ok_inv (in_token : option bytes) (s : NegotiateProxy B)
    (out : option OutMsg) :
  snd (step C _mech in_token s) = Ok out ->
  exists s1 t m s2 t' s3 o s4,
    _step_spnego_input C in_token s = (s1, Ok (t, m)) /\
    _step_spnego_token t s1 = (s2, Ok t') /\
    _step_spnego_mic C m s2 = (s3, Ok o) /\
    _step_spnego_output _mech t' o s3 = (s4, Ok out) /\
    step C _mech in_token s = prune s4 out /\
    snd (prune s4 out) = Ok out.
Proof.
  intros H. pose proof (step_phases B C _mech in_token s) as P.
  rewrite P in H.
  destruct (_step_spnego_input C in_token s) as [s1 [[t m]|e]] eqn:E1;
    [|discriminate].
  destruct (_step_spnego_token t s1) as [s2 [t'|e]] eqn:E2; [|discriminate].
  destruct (_step_spnego_mic C m s2) as [s3 [o|e]] eqn:E3; [|discriminate].
  destruct (_step_spnego_output _mech t' o s3) as [s4 [out'|e]] eqn:E4;
    [|discriminate].
  pose proof (prune_result B s4 out' out H) as E. subst out'.
  exists s1, t, m, s2, t', s3, o, s4. repeat split; auto.
Qed.

End Further.

Section Calls.

Variable B : Backend.
Variable C : Codec.
Variable _mech : NegotiateProxy B -> option OID.

Lemma mechs_of_nonempty (l l' : list (Candidate B)) :
  mechs_of l' = mechs_of l -> l <> [] -> l' <> [].
Proof.
  destruct l, l'; cbn; congruence.
Qed.

(** X1. A call of [step] that returns leaves at least one candidate, and
    exactly one when the object is complete: without a sub-context [step]
    cannot return, and completion drops every candidate but the active
    one. *)
Theorem step_keeps_a_candidate (in_token : option bytes)
    (s : NegotiateProxy B) :
  is_ok (snd (step C _mech in_token s)) = true ->
  _context_list (fst (step C _mech in_token s)) <> [] /\
  (complete (fst (step C _mech in_token s)) = true ->
   length (_context_list (fst (step C _mech in_token s))) = 1%nat).
Proof.
  destruct (snd (step C _mech in_token s)) as [out|e] eqn:E; [|discriminate].
  intros _.
  destruct (step_ok_inv B C _mech in_token s out E)
    as (s1 & t & m & s2 & t' & s3 & o & s4 & E1 & E2 & E3 & E4 & E5 & E6).
  rewrite E5.
  pose proof (token_candidates B t s1) as (_ & _ & _ & T).
  rewrite E2 in T. cbn in T. specialize (T eq_refl).
  pose proof (mic_candidates B C m s2) as (M & _).
  rewrite E3 in M. cbn in M.
  pose proof (output_candidates B _mech t' o s3) as (O & _).
  rewrite E4 in O. cbn in O.
  assert (N : _context_list s4 <> [])
    by (rewrite O; exact (mechs_of_nonempty _ _ M T)).
  destruct (prune_frame B s4 out) as (_ & _ & P).
  rewrite E6 in P. specialize (P eq_refl N).
  destruct (prune_flags B s4 out) as (Pc & _).
  unfold complete in *. rewrite P, Pc.
  destruct (_complete s4).
  - destruct (_context_list s4) as [|c l]; [congruence|].
    split; [discriminate|reflexivity].
  - split; [exact N|discriminate].
Qed.

(** X2. A call of [step] returns no token only when the object is complete
    (and has sent its first message): while the negotiation is in progress
    every call that returns hands back a token. *)
Theorem silent_step_is_complete (in_token : option bytes)
    (s : NegotiateProxy B) :
  snd (step C _mech in_token s) = Ok None ->
  complete (fst (step C _mech in_token s)) = true /\
  _init_sent (fst (step C _mech in_token s)) = true.
Proof.
  intros E.
  destruct (step_ok_inv B C _mech in_token s None E)
    as (s1 & t & m & s2 & t' & s3 & o & s4 & E1 & E2 & E3 & E4 & E5 & E6).
  rewrite E5.
  pose proof (output_result B _mech t' o s3 None) as R.
  rewrite E4 in R. cbn in R. destruct (R eq_refl) as (R1 & _ & _ & R2).
  destruct (prune_frame B s4 (@None OutMsg)) as (F & _).
  apply frame_fields in F. destruct F as (F1 & _ & _ & _ & _ & F2 & _).
  unfold complete. rewrite F1, F2. auto.
Qed.

(** X3. Once the object is complete and has sent its first message, a call
    of [step] that returns hands back no token, whatever the input. *)
Theorem complete_step_is_silent (in_token : option bytes)
    (s : NegotiateProxy B) (out : option OutMsg) :
  complete s = true ->
  _init_sent s = true ->
  snd (step C _mech in_token s) = Ok out ->
  out = None.
Proof.
  intros Hc Hi E.
  destruct (step_ok_inv B C _mech in_token s out E)
    as (s1 & t & m & s2 & t' & s3 & o & s4 & E1 & E2 & E3 & E4 & E5 & E6).
  assert (K1 : _complete s1 = true /\ _init_sent s1 = true).
  { pose proof (keeps_step_spnego_input B C
                  (fun s => _complete s = true /\ _init_sent s = true)) as K.
    replace s1 with (fst (_step_spnego_input C in_token s))
      by (rewrite E1; reflexivity).
    apply K; intros; cbn in *; tauto. }
  assert (K2 : _complete s2 = true /\ _init_sent s2 = true).
  { replace s2 with (fst (_step_spnego_token t s1))
      by (rewrite E2; reflexivity).
    apply (keeps_step_spnego_token B
             (fun s => _complete s = true /\ _init_sent s = true));
      intros; cbn in *; tauto. }
  assert (K3 : _complete s3 = true /\ _init_sent s3 = true).
  { replace s3 with (fst (_step_spnego_mic C m s2))
      by (rewrite E3; reflexivity).
    apply (keeps_step_spnego_mic B C
             (fun s => _complete s = true /\ _init_sent s = true));
      intros; cbn in *; tauto. }
  pose proof (output_result B _mech t' o s3 out) as R.
  rewrite E4 in R. cbn in R. specialize (R eq_refl).
  destruct K3 as [Kc Ki].
  destruct R as (_ & R).
  destruct out as [[l x y|l x y|st x sm y]|]; [| | |reflexivity];
    destruct R as (R1 & R2 & _); congruence.
Qed.

(** X4. The [neg_state] a reply announces agrees with the object: with
    [accept_complete] the object is complete, its active sub-context is
    complete and the MIC exchange is settled; with [accept_incomplete] the
    active sub-context is not complete; with [request_mic] the sub-context is
    complete, a MIC was sent and none received, and the object is not
    complete.  [reject] is never announced. *)
Theorem announced_state (in_token : option bytes) (s : NegotiateProxy B)
    (st : NegState.t) (t : option bytes) (sm : option OID) (m : option bytes) :
  snd (step C _mech in_token s) = Ok (Some (PackResp st t sm m)) ->
  let s' := fst (step C _mech in_token s) in
  match st with
  | NegState.accept_complete =>
      complete s' = true /\ active_complete s' = true /\
      mic_settled s' = true
  | NegState.accept_incomplete =>
      complete s' = false /\ active_complete s' = false
  | NegState.request_mic =>
      complete s' = false /\ active_complete s' = true /\
      _mic_sent s' = true /\ _mic_recv s' = false
  | NegState.reject => False
  end.
Proof.
  intros E.
  destruct (step_ok_inv B C _mech in_token s _ E)
    as (s1 & t1 & m1 & s2 & t' & s3 & o & s4 & E1 & E2 & E3 & E4 & E5 & E6).
  cbv zeta. rewrite E5.
  pose proof (output_result B _mech t' o s3 (Some (PackResp st t sm m))) as R.
  rewrite E4 in R. cbn in R. destruct (R eq_refl) as (_ & _ & _ & _ & _ & R').
  pose proof (output_flags B _mech t' o s3) as (O1 & O2 & O3 & O4 & _).
  rewrite E4 in O1, O2, O3, O4. cbn in O1, O2, O3, O4.
  pose proof (mic_flags B C m1 s2) as M. rewrite E3 in M. cbn in M.
  destruct (M eq_refl) as (M1 & _).
  destruct (prune_flags B s4 (Some (PackResp st t sm m))) as (P1 & P2 & P3).
  destruct (prune_frame B s4 (Some (PackResp st t sm m))) as (F & _).
  apply frame_fields in F. destruct F as (_ & F2 & F3 & _).
  assert (A : active_complete s4 = active_complete s3)
    by (unfold active_complete, _context; rewrite O4; reflexivity).
  unfold complete. rewrite P1, P3, P2, F2, F3, A, O2, O3.
  unfold mic_settled. rewrite O1, O2, O3.
  destruct st.
  - destruct R' as (R1 & R2 & R3). repeat split; auto.
    destruct (_mic_required s3); [|reflexivity].
    rewrite (M1 eq_refl) in *. cbn in *.
    apply negb_false_iff in R3. rewrite R3. reflexivity.
  - tauto.
  - exact R'.
  - tauto.
Qed.

End Calls.

Section Runs.

Variable B : Backend.
Variable C : Codec.
Variable _mech : NegotiateProxy B -> option OID.

Lemma input_init_sent (in_token : option bytes) (s : NegotiateProxy B) :
  (offers C in_token = false ->
   _init_sent (fst (_step_spnego_input C in_token s)) = _init_sent s) /\
  (offers C in_token = true ->
   is_ok (snd (_step_spnego_input C in_token s)) = true ->
   _init_sent (fst (_step_spnego_input C in_token s)) = true).
Proof.
  unfold offers.
  destruct (decoded C in_token) as [[i|i|r]|] eqn:D.
  3:{ rewrite (input_resp B C in_token r s D). split; [intros _|discriminate].
      unfold state_is.
      destruct (truthy_str (supported_mech r)), (neg_state r) as [[]|];
        cbn; destruct (truthy (response_token r)); reflexivity. }
  all: unfold decoded in D; unfold _step_spnego_input;
    unfold bind, lift, get, modify, ret.
  all: destruct in_token as [[|b bs]|]; try discriminate.
  1,2: destruct (unpack_neg_token C (b :: bs)) as [tok|e]; [|discriminate];
    injection D as ->; split; [discriminate|intros _];
    destruct (_rebuild_context_list (Some (_mech_list s)) (init_mech_token i) s)
      as [s1 [l|e]]; cbn; [reflexivity|discriminate].
  - pose proof (frame_fields _ _ _ (rebuild_frame B None None s))
      as (_ & _ & _ & _ & _ & F & _).
    split; [intros _|discriminate].
    destruct (_rebuild_context_list None None s) as [s1 [l|e]]; exact F.
  - destruct (unpack_neg_token C (b :: bs)) as [tok|e]; [discriminate|].
    split; [reflexivity|discriminate].
  - pose proof (frame_fields _ _ _ (rebuild_frame B None None s))
      as (_ & _ & _ & _ & _ & F & _).
    split; [intros _|discriminate].
    destruct (_rebuild_context_list None None s) as [s1 [l|e]]; exact F.
Qed.

(** X5. The first message.  On an object that has not sent its first
    message, a call of [step] whose input is not a [NegTokenInit] returns a
    [NegTokenInit] when the usage is [initiate] and a [NegTokenInit2] for any
    other usage, carrying the object's mechanism list; a call whose input is
    a [NegTokenInit] never returns one. *)
Theorem first_message (in_token : option bytes) (s : NegotiateProxy B)
    (out : option OutMsg) :
  snd (step C _mech in_token s) = Ok out ->
  (offers C in_token = false -> _init_sent s = false ->
   exists t m,
     out = Some (build_func (args s)
                   (_mech_list (fst (step C _mech in_token s))) t m)) /\
  (offers C in_token = true ->
   match out with
   | Some (PackInit _ _ _) | Some (PackInit2 _ _ _) => False
   | _ => True
   end).
Proof.
  intros E.
  destruct (step_ok_inv B C _mech in_token s out E)
    as (s1 & t & m & s2 & t' & s3 & o & s4 & E1 & E2 & E3 & E4 & E5 & E6).
  pose proof (input_init_sent in_token s) as (I1 & I2).
  rewrite E1 in I1, I2. cbn in I1, I2.
  pose proof (token_candidates B t s1) as (_ & T1 & T2 & _).
  rewrite E2 in T1, T2. cbn in T1, T2.
  pose proof (mic_candidates B C m s2) as (_ & M1 & M2).
  rewrite E3 in M1, M2. cbn in M1, M2.
  pose proof (output_result B _mech t' o s3 out) as R.
  rewrite E4 in R. cbn in R. destruct (R eq_refl) as (_ & R').
  pose proof (output_candidates B _mech t' o s3) as (_ & O).
  rewrite E4 in O. cbn in O.
  assert (A : args s3 = args s).
  { replace s3 with (fst (_step_spnego_mic C m s2))
      by (rewrite E3; reflexivity).
    replace s2 with (fst (_step_spnego_token t s1))
      by (rewrite E2; reflexivity).
    replace s1 with (fst (_step_spnego_input C in_token s))
      by (rewrite E1; reflexivity).
    apply (keeps_step_spnego_mic B C (fun x => args x = args s));
      try (intros; cbn; auto; fail).
    apply (keeps_step_spnego_token B (fun x => args x = args s));
      try (intros; cbn; auto; fail).
    apply (keeps_step_spnego_input B C (fun x => args x = args s));
      intros; cbn; auto. }
  destruct (prune_frame B s4 out) as (F & _).
  apply frame_fields in F. destruct F as (_ & _ & _ & _ & _ & _ & F & _).
  rewrite E5, F, O.
  split.
  - intros Ho Hs. specialize (I1 Ho).
    assert (N : _init_sent s3 = false) by congruence.
    unfold build_func. rewrite <- A.
    destruct out as [[l x y|l x y|st x sm y]|].
    + destruct R' as (_ & U & -> & _). rewrite U. cbn. eauto.
    + destruct R' as (_ & U & -> & _).
      apply String.eqb_neq in U. rewrite U. eauto.
    + destruct R' as (R1 & _). congruence.
    + destruct R' as (R1 & _). congruence.
  - intros Ho. specialize (I2 Ho eq_refl).
    assert (N : _init_sent s3 = true) by congruence.
    destruct out as [[l x y|l x y|st x sm y]|]; auto;
      destruct R' as (R1 & _); congruence.
Qed.

Lemma mechs_of_length (l : list (Candidate B)) :
  length (mechs_of l) = length l.
Proof. apply length_map. Qed.

Lemma prune_candidates {A} (s : NegotiateProxy B) (out : A) :
  hd_error (mechs_of (_context_list (fst (prune s out))))
  = hd_error (mechs_of (_context_list s)) /\
  (length (_context_list (fst (prune s out))) <= length (_context_list s))%nat.
Proof.
  unfold prune. destruct (complete s); [|cbn; auto].
  destruct (_context_list s) as [|c l] eqn:L; cbn; rewrite ?L; cbn;
    split; auto; lia.
Qed.

(** X6. A reply of the peer changes neither the mechanism list nor the
    active mechanism, and adds no candidate: on a [NegTokenResp], whatever
    its [supported_mech] and whether the call returns or raises, the object
    keeps [_mech_list] and the mechanism of its first candidate. *)
Theorem reply_keeps_mechanism (in_token : option bytes) (r : NegTokenResp)
    (s : NegotiateProxy B) :
  decoded C in_token = Some (TokResp r) ->
  _mech_list (fst (step C _mech in_token s)) = _mech_list s /\
  hd_error (mechs_of (_context_list (fst (step C _mech in_token s))))
  = hd_error (mechs_of (_context_list s)) /\
  (length (_context_list (fst (step C _mech in_token s)))
   <= length (_context_list s))%nat.
Proof.
  intros D. rewrite step_phases.
  assert (I : _mech_list (fst (_step_spnego_input C in_token s)) = _mech_list s
              /\ _context_list (fst (_step_spnego_input C in_token s))
                 = _context_list s).
  { rewrite (input_resp B C in_token r s D).
    destruct (truthy_str (supported_mech r));
      destruct (state_is r NegState.reject && negb (truthy (response_token r)));
      cbn; auto;
      destruct (state_is r NegState.request_mic); cbn; auto;
      destruct (state_is r NegState.accept_complete); cbn; auto. }
  destruct I as [I1 I2].
  assert (L : forall x : NegotiateProxy B,
             mechs_of (_context_list x) = mechs_of (_context_list s) ->
             hd_error (mechs_of (_context_list x))
             = hd_error (mechs_of (_context_list s)) /\
             (length (_context_list x) <= length (_context_list s))%nat).
  { intros x H. rewrite H. split; [reflexivity|].
    pose proof (mechs_of_length (_context_list x)) as Lx.
    pose proof (mechs_of_length (_context_list s)) as Ls.
    rewrite H in Lx. lia. }
  destruct (_step_spnego_input C in_token s) as [s1 [[t m]|e]];
    cbn [fst] in *.
  2:{ split; [exact I1|]. apply L. rewrite I2. reflexivity. }
  pose proof (token_candidates B t s1) as (T0 & T1 & _).
  rewrite I1, I2 in *.
  destruct (_step_spnego_token t s1) as [s2 [t'|e]]; cbn [fst] in *.
  2:{ split; [exact T1|]. apply L, T0. }
  pose proof (mic_candidates B C m s2) as (M0 & M1 & _).
  rewrite T0, T1 in *.
  destruct (_step_spnego_mic C m s2) as [s3 [o|e]]; cbn [fst] in *.
  2:{ split; [exact M1|]. apply L, M0. }
  pose proof (output_candidates B _mech t' o s3) as (O0 & O1).
  destruct (_step_spnego_output _mech t' o s3) as [s4 [out|e]]; cbn [fst] in *.
  2:{ split; [congruence|]. apply L. congruence. }
  destruct (prune_frame B s4 out) as (F & _).
  apply frame_fields in F. destruct F as (_ & _ & _ & _ & _ & _ & F & _).
  destruct (prune_candidates s4 out) as (P1 & P2).
  assert (H4 : mechs_of (_context_list s4) = mechs_of (_context_list s))
    by congruence.
  destruct (L s4 H4) as (L1 & L2).
  split; [congruence|]. split; [congruence|lia].
Qed.

(** X7. A token that does not decode ends the call at once: [step] raises
    the decoder's exception and leaves the object as it was. *)
Theorem undecodable_token (b : Byte.byte) (bs : bytes) (e : exn)
    (s : NegotiateProxy B) :
  unpack_neg_token C (b :: bs) = Err e ->
  step C _mech (Some (b :: bs)) s = (s, Err e).
Proof.
  intros H. rewrite step_phases.
  unfold _step_spnego_input, bind, lift. rewrite H. reflexivity.
Qed.

End Runs.

Section Rebuild.

Variable B : Backend.

(** One iteration of the second loop of [_rebuild_context_list]. *)
Lemma build_contexts_cons (gp : list string) (in_token : option bytes)
    (one_required : bool) (mech : GSSMech.t) (rest : list GSSMech.t)
    (mech_list : list OID) (s : NegotiateProxy B) :
  build_contexts gp in_token one_required (mech :: rest) mech_list s =
  match
    (if str_in (GSSMech.name mech) gp then
       match first_step B (GSSAPIProxy B (args s) (GSSMech.name mech))
                        in_token with
       | Ok x => Ok (Some x)
       | Err _ => Ok None
       end
     else
       match first_step B (NTLMProxy B (args s)) in_token with
       | Ok x => Ok (Some x)
       | Err e => Err e
       end)
  with
  | Err e => (s, Err e)
  | Ok None => build_contexts gp in_token one_required rest mech_list s
  | Ok (Some (c, ft)) =>
      let s' := set_context_list (_context_list s ++ [(mech, c, ft)]) s in
      if one_required then (s', Ok mech_list)
      else build_contexts gp in_token one_required rest
                          (mech_list ++ [GSSMech.value mech]) s'
  end.
Proof.
  cbn [build_contexts]. unfold bind, get, lift, ret, modify.
  destruct (str_in (GSSMech.name mech) gp).
  - destruct (first_step B (GSSAPIProxy B (args s) (GSSMech.name mech))
                in_token) as [[c ft]|e]; [|reflexivity].
    destruct one_required; reflexivity.
  - destruct (first_step B (NTLMProxy B (args s)) in_token) as [[c ft]|e];
      [|reflexivity].
    destruct one_required; reflexivity.
Qed.

Lemma build_contexts_appends (gp : list string) (in_token : option bytes)
    (one_required : bool) (chosen : list GSSMech.t) :
  forall (mech_list : list OID) (s : NegotiateProxy B),
  exists added : list (Candidate B),
    _context_list
      (fst (build_contexts gp in_token one_required chosen mech_list s))
    = _context_list s ++ added /\
    incl (mechs_of added) chosen /\
    (one_required = true ->
     (length added <= 1)%nat /\
     forall l, snd (build_contexts gp in_token one_required chosen mech_list s)
               = Ok l -> l = mech_list) /\
    (one_required = false ->
     forall l, snd (build_contexts gp in_token one_required chosen mech_list s)
               = Ok l ->
               l = mech_list ++ map GSSMech.value (mechs_of added)).
Proof.
  induction chosen as [|mech rest IH]; intros mech_list s.
  - exists []. cbn [build_contexts]. unfold ret. cbn [fst snd].
    rewrite app_nil_r. split; [reflexivity|]. split; [intros x []|]. split.
    + intros _. split; [cbn; lia|]. intros l E. injection E as <-. reflexivity.
    + intros _ l E. injection E as <-. cbn. rewrite app_nil_r. reflexivity.
  - rewrite build_contexts_cons.
    destruct (if str_in (GSSMech.name mech) gp
              then match first_step B (GSSAPIProxy B (args s)
                                         (GSSMech.name mech)) in_token with
                   | Ok x => Ok (Some x)
                   | Err _ => Ok None
                   end
              else match first_step B (NTLMProxy B (args s)) in_token with
                   | Ok x => Ok (Some x)
                   | Err e => Err e
                   end) as [[[c ft]|]|e].
    + cbv zeta. destruct one_required.
      * exists [(mech, c, ft)]. cbn. split; [reflexivity|].
        split; [intros x [<-|[]]; left; reflexivity|].
        split; [|discriminate].
        intros _. split; [lia|]. intros l E. injection E as <-. reflexivity.
      * destruct (IH (mech_list ++ [GSSMech.value mech])
                     (set_context_list (_context_list s ++ [(mech, c, ft)]) s))
          as (added & H1 & H2 & _ & H4).
        exists ((mech, c, ft) :: added).
        cbn [_context_list set_context_list] in H1.
        split; [rewrite H1, <- app_assoc; reflexivity|].
        split; [intros x [<-|Hx]; [left; reflexivity|right; apply H2, Hx]|].
        split; [discriminate|].
        intros _ l E. rewrite (H4 eq_refl l E), <- app_assoc. reflexivity.
    + destruct (IH mech_list s) as (added & H1 & H2 & H3 & H4).
      exists added. split; [exact H1|]. split; [apply incl_tl, H2|].
      split; assumption.
    + exists []. cbn. rewrite app_nil_r. split; [reflexivity|].
      split; [intros x []|]. split.
      * intros _. split; [lia|]. discriminate.
      * discriminate.
Qed.

(** [_rebuild_context_list] as a function of the object. *)
Lemma rebuild_unfold (mech_list : option (list OID)) (in_token : option bytes)
    (s : NegotiateProxy B) :
  _rebuild_context_list mech_list in_token s =
  match available_mechs B (context_req (args s)) with
  | Err e => (s, Err e)
  | Ok available =>
      let given := match mech_list with Some (m :: l) => m :: l | _ => [] end in
      let one_required :=
        match mech_list with Some (_ :: _) => true | _ => false end in
      match (if one_required then choose_mechs available given
             else available) with
      | [] => (s, Err NoCommonMechanism)
      | a :: chosen =>
          build_contexts (gssapi_protocols B (context_req (args s))) in_token
                         one_required (a :: chosen) given s
      end
  end.
Proof.
  unfold _rebuild_context_list, bind, get, lift, raise.
  destruct (available_mechs B (context_req (args s))) as [available|e];
    [|reflexivity].
  destruct mech_list as [[|m l]|]; cbv zeta.
  - destruct available; reflexivity.
  - destruct (choose_mechs available (m :: l)); reflexivity.
  - destruct available; reflexivity.
Qed.

Lemma rebuild_appends_candidates (mech_list : option (list OID))
    (in_token : option bytes) (s : NegotiateProxy B) :
  exists added : list (Candidate B),
    _context_list (fst (_rebuild_context_list mech_list in_token s))
    = _context_list s ++ added.
Proof.
  rewrite rebuild_unfold.
  destruct (available_mechs B (context_req (args s))) as [available|e];
    [|exists []; cbn; rewrite app_nil_r; reflexivity].
  cbv zeta.
  match goal with
  | |- context [match ?c with [] => _ | _ :: _ => _ end] =>
      destruct c as [|a av]
  end; [exists []; cbn; rewrite app_nil_r; reflexivity|].
  match goal with
  | |- context [build_contexts ?gp ?tok ?one ?ch ?ml s] =>
      destruct (build_contexts_appends gp tok one ch ml s) as (added & H & _)
  end.
  exists added. exact H.
Qed.

(** X8. [_rebuild_context_list] only appends: the candidates the object had
    stay where they were, new ones are added behind them and no other field
    changes; an object that has an active sub-context keeps it through a
    rebuild. *)
Theorem rebuild_appends (mech_list : option (list OID))
    (in_token : option bytes) (s : NegotiateProxy B) :
  exists added : list (Candidate B),
    _context_list (fst (_rebuild_context_list mech_list in_token s))
    = _context_list s ++ added /\
    set_context_list [] (fst (_rebuild_context_list mech_list in_token s))
    = set_context_list [] s /\
    (_context_list s <> [] ->
     _context (fst (_rebuild_context_list mech_list in_token s)) = _context s).
Proof.
  destruct (rebuild_appends_candidates mech_list in_token s) as (added & H).
  exists added.
  split; [exact H|]. split; [apply rebuild_frame|].
  intros N. unfold _context. rewrite H.
  destruct (_context_list s) as [|[[m c] t] rest]; [congruence|reflexivity].
Qed.

(** X9. The mechanism list [_rebuild_context_list] returns.  Called without
    a mechanism list it returns the identifiers of the candidates it added,
    in their order; called with one it returns that list and adds at most one
    candidate. *)
Theorem rebuild_mech_list (mech_list : option (list OID))
    (in_token : option bytes) (s : NegotiateProxy B) (l : list OID) :
  snd (_rebuild_context_list mech_list in_token s) = Ok l ->
  exists added : list (Candidate B),
    _context_list (fst (_rebuild_context_list mech_list in_token s))
    = _context_list s ++ added /\
    match mech_list with
    | Some (m :: ml) => l = m :: ml /\ (length added <= 1)%nat
    | _ => l = map GSSMech.value (mechs_of added)
    end.
Proof.
  rewrite rebuild_unfold.
  destruct (available_mechs B (context_req (args s))) as [available|e];
    [|discriminate].
  destruct mech_list as [[|m ml]|]; cbv zeta.
  - destruct available as [|a av]; [discriminate|].
    destruct (build_contexts_appends
                (gssapi_protocols B (context_req (args s))) in_token false
                (a :: av) [] s) as (added & H & _ & _ & H4).
    intros E. exists added. split; [exact H|]. apply (H4 eq_refl l E).
  - destruct (choose_mechs available (m :: ml)) as [|a av]; [discriminate|].
    destruct (build_contexts_appends
                (gssapi_protocols B (context_req (args s))) in_token true
                (a :: av) (m :: ml) s) as (added & H & _ & H3 & _).
    intros E. exists added. split; [exact H|].
    destruct (H3 eq_refl) as (L & R). split; [apply R, E|exact L].
  - destruct available as [|a av]; [discriminate|].
    destruct (build_contexts_appends
                (gssapi_protocols B (context_req (args s))) in_token false
                (a :: av) [] s) as (added & H & _ & _ & H4).
    intros E. exists added. split; [exact H|]. apply (H4 eq_refl l E).
Qed.

(** X10. Without GSSAPI (it advertises nothing, or negotiate only) a rebuild
    from the local priority is the construction of the built-in NTLM
    sub-context: its failure is raised as it is, with the object untouched;
    its success adds the one candidate, with its first token cached, and
    returns the NTLM identifier alone. *)
Theorem rebuild_without_gssapi (in_token : option bytes)
    (s : NegotiateProxy B) :
  gssapi_protocols B (context_req (args s)) = [] ->
  _rebuild_context_list None in_token s =
  match first_step B (NTLMProxy B (args s)) in_token with
  | Err e => (s, Err e)
  | Ok (c, first_token) =>
      (set_context_list (_context_list s ++ [(GSSMech.ntlm, c, first_token)]) s,
       Ok [GSSMech.value GSSMech.ntlm])
  end.
Proof.
  intros G. rewrite rebuild_unfold. unfold available_mechs.
  rewrite G. cbn [getattr_all app]. cbv zeta.
  rewrite build_contexts_cons. cbn [str_in].
  destruct (first_step B (NTLMProxy B (args s)) in_token) as [[c ft]|e];
    reflexivity.
Qed.

End Rebuild.

Section Monotone.

Variable B : Backend.
Variable C : Codec.
Variable _mech : NegotiateProxy B -> option OID.

(** X11. No flag is ever reset and the arguments are never touched: over any
    sequence of calls of [step], returning or raising, each of [_init_sent],
    [_mic_sent], [_mic_recv] and [_mic_required] that is set stays set, and
    [args] (with the usage) is what it was. *)
Theorem flags_never_reset (inputs : list (option bytes))
    (s : NegotiateProxy B) :
  (_init_sent s = true -> _init_sent (fst (run C _mech inputs s)) = true) /\
  (_mic_sent s = true -> _mic_sent (fst (run C _mech inputs s)) = true) /\
  (_mic_recv s = true -> _mic_recv (fst (run C _mech inputs s)) = true) /\
  (_mic_required s = true ->
   _mic_required (fst (run C _mech inputs s)) = true) /\
  args (fst (run C _mech inputs s)) = args s.
Proof.
  repeat split.
  - intros H.
    apply (keeps_run B C _mech (fun x => _init_sent x = true));
      intros; cbn; auto.
  - intros H.
    apply (keeps_run B C _mech (fun x => _mic_sent x = true));
      intros; cbn; auto.
  - intros H.
    apply (keeps_run B C _mech (fun x => _mic_recv x = true));
      intros; cbn; auto.
  - intros H.
    apply (keeps_run B C _mech (fun x => _mic_required x = true));
      intros; cbn; auto.
  - apply (keeps_run B C _mech (fun x => args x = args s));
      intros; cbn; auto.
Qed.

(** The MIC phase returns a MIC only when none had been sent, and has then
    recorded that one was. *)
Lemma mic_result (in_mic : option bytes) (s : NegotiateProxy B) (x : bytes) :
  snd (_step_spnego_mic C in_mic s) = Ok (Some x) ->
  _mic_sent s = false /\ _mic_sent (fst (_step_spnego_mic C in_mic s)) = true.
Proof.
  destruct s as [a c l ml i ms sent recv req].
  unfold _step_spnego_mic, verify, sign, _reset_ntlm_crypto_state,
    call_context, bind, get, modify, ret, when.
  cbn.
  destruct l as [|[[m y] t] rest];
    destruct in_mic as [[|b bs]|]; destruct sent, req; cbn;
    repeat match goal with
      | |- context [ctx_verify B ?x ?d ?m] =>
          destruct (ctx_verify B x d m) as [? [[]|?]]; cbn
      | |- context [ctx_sign B ?x ?d] =>
          destruct (ctx_sign B x d) as [? [?|?]]; cbn
      | |- context [ctx_reset_ntlm_crypto_state B ?x ?o] =>
          destruct (ctx_reset_ntlm_crypto_state B x o) as [? [[]|?]]; cbn
      end;
    intros H; try discriminate H; split; reflexivity.
Qed.

Lemma mic_sent_step (in_token : option bytes) (s : NegotiateProxy B) :
  _mic_sent s = true -> _mic_sent (fst (step C _mech in_token s)) = true.
Proof.
  intros H.
  apply (keeps_step_call B C _mech (fun x => _mic_sent x = true));
    intros; cbn; auto.
Qed.

Lemma step_emits_mic (in_token : option bytes) (s : NegotiateProxy B) :
  emits_mic (snd (step C _mech in_token s)) = true ->
  _mic_sent s = false /\ _mic_sent (fst (step C _mech in_token s)) = true.
Proof.
  intros H.
  destruct (snd (step C _mech in_token s)) as [out|e] eqn:E; [|discriminate].
  destruct (step_ok_inv B C _mech in_token s out E)
    as (s1 & t & m & s2 & t' & s3 & o & s4 & E1 & E2 & E3 & E4 & E5 & E6).
  pose proof (input_flags B C in_token s) as (I & _).
  rewrite E1 in I. cbn in I.
  pose proof (token_flags B t s1) as (_ & T).
  rewrite E2 in T. cbn in T.
  pose proof (output_result B _mech t' o s3 out) as R.
  rewrite E4 in R. cbn in R. destruct (R eq_refl) as (_ & R').
  pose proof (output_flags B _mech t' o s3) as (_ & O & _).
  rewrite E4 in O. cbn in O.
  destruct (prune_frame B s4 out) as (F & _).
  apply frame_fields in F. destruct F as (_ & F & _).
  assert (S : exists x, o = Some x).
  { destruct out as [[l x [y|]|l x [y|]|st x sm [y|]]|]; try discriminate H.
    - destruct R' as (_ & _ & _ & _ & <- & _). eauto.
    - destruct R' as (_ & _ & _ & _ & <- & _). eauto.
    - destruct R' as (_ & _ & _ & <- & _). eauto. }
  destruct S as [x ->].
  pose proof (mic_result m s2 x) as M. rewrite E3 in M. cbn in M.
  destruct (M eq_refl) as (M1 & M2).
  rewrite E5, F, O. split; congruence.
Qed.

(** X12. Over any sequence of calls of [step], at most one of the tokens
    returned carries a [mech_list_mic], and none does once [_mic_sent] is
    set. *)
Theorem mic_emitted_at_most_once (inputs : list (option bytes))
    (s : NegotiateProxy B) :
  (count_mic (snd (run C _mech inputs s)) <= 1)%nat /\
  (_mic_sent s = true -> count_mic (snd (run C _mech inputs s)) = 0%nat).
Proof.
  assert (Z : forall inputs (s : NegotiateProxy B),
             _mic_sent s = true ->
             count_mic (snd (run C _mech inputs s)) = 0%nat).
  { clear inputs s. induction inputs as [|i rest IH]; intros s H;
      [reflexivity|].
    rewrite run_cons. unfold count_mic in *. cbn [snd filter].
    destruct (emits_mic (snd (step C _mech i s))) eqn:E.
    - apply step_emits_mic in E. destruct E as [E _]. congruence.
    - apply IH, mic_sent_step, H. }
  split; [|apply Z].
  revert s. induction inputs as [|i rest IH]; intros s;
    [unfold count_mic; simpl; lia|].
  rewrite run_cons. unfold count_mic in *. cbn [snd filter].
  destruct (emits_mic (snd (step C _mech i s))) eqn:E.
  - apply step_emits_mic in E. destruct E as [_ E].
    pose proof (Z rest _ E) as Z'. unfold count_mic in Z'.
    cbn [length]. rewrite Z'. lia.
  - apply IH.
Qed.

(** X13. An incoming MIC that does not verify is fatal and leaves no trace in
    the flags: when the sub-context's [verify] raises, the MIC phase raises
    the same exception, sets neither [_mic_recv] nor [_mic_required] nor
    [_complete], signs nothing and resets nothing. *)
Theorem failed_verification (b : Byte.byte) (bs : bytes)
    (s : NegotiateProxy B) (m : GSSMech.t) (c c' : ctx B)
    (t : option bytes) (rest : list (Candidate B)) (e : exn) :
  _context_list s = (m, c, t) :: rest ->
  ctx_verify B c (pack_mech_type_list C (_mech_list s)) (b :: bs)
  = (c', Err e) ->
  _step_spnego_mic C (Some (b :: bs)) s
  = (set_context_list ((m, c', t) :: rest) s, Err e).
Proof.
  intros L V.
  unfold _step_spnego_mic, verify, call_context.
  unfold bind at 1. unfold bind at 1, get. unfold bind at 1.
  rewrite L, V. reflexivity.
Qed.

End Monotone.

Section Finished.

Variable B : Backend.
Variable C : Codec.

Local Abbreviation RB := (recording B).

Variable _mech : NegotiateProxy RB -> option OID.

(** The input phase adds candidates behind the ones the object has. *)
Lemma input_appends (X : Backend) (in_token : option bytes)
    (s : NegotiateProxy X) :
  exists added : list (Candidate X),
    _context_list (fst (_step_spnego_input C in_token s))
    = _context_list s ++ added.
Proof.
  assert (R : forall ml tok,
             exists added : list (Candidate X),
               _context_list
                 (fst ((l <- _rebuild_context_list ml tok ;;
                        modify (set_mech_list l) ;;
                        ret (@None bytes, @None bytes)) s))
               = _context_list s ++ added).
  { intros ml tok. unfold bind, modify, ret.
    destruct (rebuild_appends_candidates X ml tok s) as (added & H).
    exists added.
    destruct (_rebuild_context_list ml tok s) as [s1 [l|e]]; exact H. }
  assert (R' : forall tok (r : option bytes * option bytes),
             exists added : list (Candidate X),
               _context_list
                 (fst ((x <- get ;;
                        l <- _rebuild_context_list (Some (_mech_list s)) tok ;;
                        modify (set_mech_list l) ;;
                        modify (set_init_sent true) ;;
                        ret r) s))
               = _context_list s ++ added).
  { intros tok r. unfold bind, modify, ret, get.
    destruct (rebuild_appends_candidates X (Some (_mech_list s)) tok s)
      as (added & H).
    exists added.
    destruct (_rebuild_context_list (Some (_mech_list s)) tok s)
      as [s1 [l|e]]; exact H. }
  destruct (decoded C in_token) as [[i|i|r]|] eqn:D.
  3:{ exists []. rewrite (input_resp X C in_token r s D), app_nil_r.
      destruct (truthy_str (supported_mech r));
        destruct (state_is r NegState.reject
                  && negb (truthy (response_token r)));
        cbn; auto;
        destruct (state_is r NegState.request_mic); cbn; auto;
        destruct (state_is r NegState.accept_complete); cbn; auto. }
  all: unfold decoded in D; unfold _step_spnego_input.
  all: destruct in_token as [[|b bs]|]; try discriminate; try apply R.
  all: unfold bind at 1, lift;
    destruct (unpack_neg_token C (b :: bs)) as [tok|e];
    [|exists []; cbn; rewrite app_nil_r; reflexivity];
    try discriminate; injection D as ->.
  - apply R'.
  - apply R'.
Qed.

Ltac backend_cases :=
  repeat match goal with
    | |- context [ctx_verify B ?x ?d ?m] =>
        destruct (ctx_verify B x d m) as [? [[]|?]]; cbn
    | |- context [ctx_sign B ?x ?d] =>
        destruct (ctx_sign B x d) as [? [?|?]]; cbn
    | |- context [ctx_reset_ntlm_crypto_state B ?x ?o] =>
        destruct (ctx_reset_ntlm_crypto_state B x o) as [? [[]|?]]; cbn
    end.

(** The calls of the MIC phase are verifications, signatures and resets. *)
Lemma mic_phase_no_step (in_mic : option bytes) (s : NegotiateProxy RB) :
  exists evs,
    calls (fst (_step_spnego_mic C in_mic s)) = calls s ++ evs /\
    resets_follow evs = true.
Proof.
  destruct s as [a c l ml i ms sent recv req].
  unfold _step_spnego_mic, verify, sign, _reset_ntlm_crypto_state,
    call_context, bind, get, modify, ret, when, calls, _context.
  cbn.
  destruct l as [|[[m [x log]] t] rest].
  - exists []. cbn.
    destruct in_mic as [[|b bs]|]; cbn;
      try (destruct (req && negb sent); cbn); split; reflexivity.
  - destruct in_mic as [[|b bs]|]; destruct sent, req; cbn;
      backend_cases;
      first [ exists []; rewrite app_nil_r; split; reflexivity
            | eexists; rewrite <- ?app_assoc; split; [reflexivity|];
              reflexivity ].
Qed.

(** X14. A sub-context that is complete is not stepped again: from an object
    whose active sub-context is complete, a call of [step], whatever its
    input and outcome, makes on that sub-context only calls of the MIC
    exchange (verify, sign and the resets that follow them), never a call of
    its [step]. *)
Theorem complete_context_not_stepped (in_token : option bytes)
    (s : NegotiateProxy RB) :
  active_complete s = true ->
  exists evs : list Call,
    calls (fst (step C _mech in_token s)) = calls s ++ evs /\
    resets_follow evs = true.
Proof.
  intros A.
  assert (Same : forall x : NegotiateProxy RB,
            _context x = _context s ->
            exists evs, calls x = calls s ++ evs /\ resets_follow evs = true).
  { intros x H. exists []. unfold calls. rewrite H, app_nil_r. auto. }
  rewrite step_phases.
  destruct (input_appends RB in_token s) as (added & I).
  assert (I' : _context (fst (_step_spnego_input C in_token s)) = _context s).
  { unfold _context. rewrite I. unfold active_complete, _context in A.
    destruct (_context_list s) as [|[[m c] t] rest]; [discriminate|].
    reflexivity. }
  destruct (_step_spnego_input C in_token s) as [s1 [[t m]|e]];
    cbn [fst] in *; [|apply Same, I'].
  assert (T : _step_spnego_token t s1 = (s1, Ok None)).
  { unfold active_complete in A. rewrite <- I' in A.
    unfold _step_spnego_token, read_context, bind.
    destruct (_context s1) as [c|]; [|discriminate].
    rewrite A. reflexivity. }
  rewrite T.
  destruct (mic_phase_no_step m s1) as (evs & M & RF).
  assert (M' : calls (fst (_step_spnego_mic C m s1)) = calls s ++ evs)
    by (rewrite M; unfold calls; rewrite I'; reflexivity).
  destruct (_step_spnego_mic C m s1) as [s3 [o|e]]; cbn [fst] in *;
    [|exists evs; auto].
  pose proof (output_candidates RB _mech None o s3) as (O & _).
  destruct (_step_spnego_output _mech None o s3) as [s4 [out|e]];
    cbn [fst] in *.
  2:{ exists evs. split; [|exact RF]. rewrite <- M'.
      unfold calls, _context. rewrite O. reflexivity. }
  exists evs. split; [|exact RF]. rewrite <- M'.
  unfold calls, _context, prune. rewrite <- O.
  destruct (complete s4); [|reflexivity].
  destruct (_context_list s4) as [|[[m' c'] t''] rest] eqn:L4;
    cbn [fst set_context_list _context_list]; rewrite ?L4; reflexivity.
Qed.

End Finished.

(** * Further properties of the factory *)

Section Selection.

Variable lower : string -> string.
Variables use_sspi use_gssapi use_negotiate use_ntlm : Z.
Variables sspi gssapi : Z -> list string.

Local Abbreviation new_context :=
  (Auth._new_context lower use_sspi use_gssapi use_negotiate use_ntlm
                     sspi gssapi).

Lemma str_in_false (x : string) (l : list string) :
  ~ In x l -> str_in x l = false.
Proof.
  intros H. destruct (str_in x l) eqn:E; [|reflexivity].
  apply str_in_In in E. contradiction.
Qed.

(** X15. A [use_*] bit decides alone.  When the options contain one of the
    four bits, [_new_context] selects the class of the first bit present, in
    the order SSPI, GSSAPI, negotiate, NTLM, without looking at the protocol
    or at what the providers advertise, and calls it with the usage, the
    lower-cased protocol and the options: for SSPI, GSSAPI and NTLM that call
    is made; for the negotiate class it is a [TypeError], as the class takes
    one argument less than it is given.  The [ValueError] for an invalid
    protocol is never raised, also for a protocol name that is not known. *)
Theorem use_flag_decides (context_req : Z) (protocol : string) (options : Z)
    (usage : Auth.pyval) :
  Z.land options
         (Auth.use_flags use_sspi use_gssapi use_negotiate use_ntlm) <> 0%Z ->
  new_context context_req protocol (Auth.PyInt options) usage
  = match forced_proxy use_sspi use_gssapi use_negotiate options with
    | Auth.NegotiateProxy => Err TypeError
    | p => Ok (Auth.mkCall p usage (lower protocol) (Auth.PyInt options))
    end.
Proof.
  intros H. unfold Auth._new_context, Auth.py_and, forced_proxy.
  apply Z.eqb_neq in H. rewrite H. cbn [negb andb].
  rewrite !orb_false_r.
  destruct (Z.land options use_sspi =? 0)%Z eqn:E1; cbn [negb]; [|reflexivity].
  destruct (Z.land options use_gssapi =? 0)%Z eqn:E2; cbn [negb];
    [|reflexivity].
  destruct (Z.land options use_negotiate =? 0)%Z eqn:E3; cbn [negb];
    [|reflexivity].
  destruct (Z.land options use_ntlm =? 0)%Z eqn:E4; cbn [negb]; [|reflexivity].
  exfalso. apply Z.eqb_eq in E1, E2, E3, E4. apply Z.eqb_neq in H. apply H.
  unfold Auth.use_flags. rewrite !Z.land_lor_distr_r, E1, E2, E3, E4.
  reflexivity.
Qed.

(** X16. The protocol is compared without regard to case: two protocol names
    with the same lower-cased form select the same class with the same
    arguments, or are both refused. *)
Theorem protocol_case_insensitive (context_req : Z) (p1 p2 : string)
    (options usage : Auth.pyval) (c : Auth.call) :
  lower p1 = lower p2 ->
  (new_context context_req p1 options usage = Ok c <->
   new_context context_req p2 options usage = Ok c).
Proof.
  intros H. unfold Auth._new_context. rewrite H.
  destruct (Auth.py_and options
              (Auth.use_flags use_sspi use_gssapi use_negotiate use_ntlm))
    as [z|e]; [|tauto].
  repeat match goal with
    | |- context [if ?b then _ else _] => destruct b
    end; try tauto.
  split; discriminate.
Qed.

(** X17. The default selection.  With no [use_*] bit in the options: a
    protocol SSPI advertises goes to SSPI; otherwise kerberos, and any
    protocol GSSAPI advertises, goes to GSSAPI, so that kerberos never goes
    to a built-in class; otherwise negotiate goes to the built-in negotiate
    proxy, whose call with nine arguments is a [TypeError], and ntlm goes to
    the built-in NTLM proxy. *)
Theorem default_selection (context_req : Z) (protocol : string) (options : Z)
    (usage : Auth.pyval) :
  Z.land options
         (Auth.use_flags use_sspi use_gssapi use_negotiate use_ntlm) = 0%Z ->
  let chosen (p : Auth.proxy) :=
    new_context context_req protocol (Auth.PyInt options) usage
    = Ok (Auth.mkCall p usage (lower protocol) (Auth.PyInt options)) in
  (In (lower protocol) (sspi context_req) -> chosen Auth.SSPIProxy) /\
  (~ In (lower protocol) (sspi context_req) ->
   lower protocol = "kerberos" \/ In (lower protocol) (gssapi context_req) ->
   chosen Auth.GSSAPIProxy) /\
  (~ In (lower protocol) (sspi context_req) ->
   ~ In (lower protocol) (gssapi context_req) ->
   lower protocol = "negotiate" ->
   new_context context_req protocol (Auth.PyInt options) usage
   = Err TypeError) /\
  (~ In (lower protocol) (sspi context_req) ->
   ~ In (lower protocol) (gssapi context_req) ->
   lower protocol = "ntlm" -> chosen Auth.NTLMProxy).
Proof.
  intros H. cbv zeta.
  unfold Auth._new_context, Auth.py_and. rewrite H.
  unfold Auth.use_flags in H.
  pose proof (land_lor_zero_r _ _ _ H) as H4.
  apply land_lor_zero_l in H.
  pose proof (land_lor_zero_r _ _ _ H) as H3.
  apply land_lor_zero_l in H.
  pose proof (land_lor_zero_r _ _ _ H) as H2.
  apply land_lor_zero_l in H.
  rewrite H, H2, H3, H4. cbn [Z.eqb negb orb andb].
  split; [|split; [|split]].
  - intros S. apply str_in_In in S. rewrite S. reflexivity.
  - intros S G. rewrite (str_in_false _ _ S).
    destruct G as [G|G].
    + rewrite G. reflexivity.
    + apply str_in_In in G. rewrite G, orb_true_r. reflexivity.
  - intros S G N. rewrite (str_in_false _ _ S), (str_in_false _ _ G), N.
    reflexivity.
  - intros S G N. rewrite (str_in_false _ _ S), (str_in_false _ _ G), N.
    reflexivity.
Qed.

End Selection.

Section Offer.

Variable B : Backend.
Variable C : Codec.
Variable _mech : NegotiateProxy B -> option OID.

(** X18. The mechanisms a peer offers are not read: two initial tokens
    ([NegTokenInit] or [NegTokenInit2]) with the same [mech_token] and the
    same [mech_list_mic] make [step] do the same, whatever their
    [mech_types]; the candidates are rebuilt from the object's own mechanism
    list. *)
Theorem offered_mechanisms_ignored (i1 i2 : option bytes)
    (a1 a2 : NegTokenInit) (s : NegotiateProxy B) :
  offered C i1 = Some a1 ->
  offered C i2 = Some a2 ->
  init_mech_token a1 = init_mech_token a2 ->
  init_mech_list_mic a1 = init_mech_list_mic a2 ->
  step C _mech i1 s = step C _mech i2 s.
Proof.
  intros H1 H2 T M.
  assert (I : forall i a,
             offered C i = Some a ->
             _step_spnego_input C i s =
             (x <- get ;;
              l <- _rebuild_context_list (Some (_mech_list x))
                     (init_mech_token a) ;;
              modify (set_mech_list l) ;;
              modify (set_init_sent true) ;;
              ret (init_mech_token a, init_mech_list_mic a)) s).
  { intros i a H. unfold offered, decoded in H. unfold _step_spnego_input.
    destruct i as [[|b bs]|]; try discriminate.
    unfold bind at 1, lift.
    destruct (unpack_neg_token C (b :: bs)) as [[x|x|x]|e]; try discriminate;
      injection H as ->; reflexivity. }
  rewrite !step_phases, (I i1 a1 H1), (I i2 a2 H2), T, M. reflexivity.
Qed.

End Offer.

(** X18, instance: an offer of NTLM and an offer of Kerberos, with the same
    inner token, to a fresh acceptor. *)
Lemma offered_mechanisms_ignored_witness :
  offered two_offers (Some Toy.offer)
  = Some (mkInit [GSSMech.value GSSMech.ntlm] (Some [Byte.x4e]) None) /\
  offered two_offers (Some [Byte.x61])
  = Some (mkInit [GSSMech.value GSSMech.kerberos] (Some [Byte.x4e]) None) /\
  step two_offers Toy._mech (Some Toy.offer)
       (__init__ Scenario.ntlm_only Toy.acceptor)
  = step two_offers Toy._mech (Some [Byte.x61])
         (__init__ Scenario.ntlm_only Toy.acceptor).
Proof.
  split; [reflexivity|]. split; [reflexivity|].
  apply (offered_mechanisms_ignored Scenario.ntlm_only two_offers Toy._mech
           (Some Toy.offer) (Some [Byte.x61]) _ _
           (__init__ Scenario.ntlm_only Toy.acceptor) eq_refl eq_refl
           eq_refl eq_refl).
Defined.

(** * Instances of the further properties *)

(** X1, instance: the initiator after its first call, and after the reply
    that completes it. *)
Lemma step_keeps_a_candidate_witness :
  _context_list (fst (step Scenario.codec Toy._mech (Some Toy.challenge)
                           (Runs.after_first Scenario.two_legs))) <> [] /\
  length (_context_list (fst (step Scenario.codec Toy._mech (Some Toy.challenge)
                                   (Runs.after_first Scenario.two_legs))))
  = 1%nat.
Proof.
  destruct (step_keeps_a_candidate Scenario.two_legs Scenario.codec Toy._mech
              (Some Toy.challenge) (Runs.after_first Scenario.two_legs)
              eq_refl) as (H1 & H2).
  split; [exact H1|apply H2; reflexivity].
Defined.

(** X2, instance: the call that receives the early [accept_complete]. *)
Lemma silent_step_is_complete_witness :
  snd (step Scenario.codec Toy._mech (Some Toy.early_accept)
            (Runs.after_first Scenario.three_legs)) = Ok None /\
  complete (fst (step Scenario.codec Toy._mech (Some Toy.early_accept)
                      (Runs.after_first Scenario.three_legs))) = true.
Proof.
  split; [reflexivity|].
  apply (silent_step_is_complete Scenario.three_legs Scenario.codec Toy._mech
           (Some Toy.early_accept) (Runs.after_first Scenario.three_legs)
           eq_refl).
Defined.

(** X3, instance: a further challenge to the completed initiator. *)
Lemma complete_step_is_silent_witness :
  complete (Runs.after_early_accept Scenario.three_legs) = true /\
  _init_sent (Runs.after_early_accept Scenario.three_legs) = true /\
  match snd (step Scenario.codec Toy._mech (Some Toy.challenge)
                  (Runs.after_early_accept Scenario.three_legs)) with
  | Ok out => out = None
  | Err _ => False
  end.
Proof.
  split; [reflexivity|]. split; [reflexivity|].
  destruct (snd (step Scenario.codec Toy._mech (Some Toy.challenge)
                      (Runs.after_early_accept Scenario.three_legs)))
    as [out|e] eqn:E; [|discriminate E].
  apply (complete_step_is_silent Scenario.three_legs Scenario.codec Toy._mech
           (Some Toy.challenge) (Runs.after_early_accept Scenario.three_legs)
           out eq_refl eq_refl E).
Defined.

(** X4, instance: the initiator that answers the challenge with
    [accept_complete]. *)
Lemma announced_state_witness :
  snd (step Scenario.codec Toy._mech (Some Toy.challenge)
            (Runs.after_first Scenario.two_legs))
  = Ok (Some (PackResp NegState.accept_complete (Some [Byte.x4e; Byte.x4e])
                       None None)) /\
  complete (after_challenge Scenario.two_legs) = true /\
  active_complete (after_challenge Scenario.two_legs) = true /\
  mic_settled (after_challenge Scenario.two_legs) = true.
Proof.
  split; [reflexivity|].
  apply (announced_state Scenario.two_legs Scenario.codec Toy._mech
           (Some Toy.challenge) (Runs.after_first Scenario.two_legs)
           NegState.accept_complete (Some [Byte.x4e; Byte.x4e]) None None
           eq_refl).
Defined.

(** X5, instance: the first call of an initiator. *)
Lemma first_message_witness :
  offers Scenario.codec None = false /\
  _init_sent (Scenario.start Scenario.ntlm_only) = false /\
  exists t m,
    Some (PackInit [GSSMech.value GSSMech.ntlm] (Some [Byte.x4e]) None)
    = Some (build_func (args (Scenario.start Scenario.ntlm_only))
              (_mech_list (fst (step Scenario.codec Toy._mech None
                                     (Scenario.start Scenario.ntlm_only))))
              t m).
Proof.
  split; [reflexivity|]. split; [reflexivity|].
  apply (proj1 (first_message Scenario.ntlm_only Scenario.codec Toy._mech None
                  (Scenario.start Scenario.ntlm_only)
                  (Some (PackInit [GSSMech.value GSSMech.ntlm]
                                  (Some [Byte.x4e]) None))
                  eq_refl));
    reflexivity.
Defined.

(** X6, instance: the challenge, which names a [supported_mech]. *)
Lemma reply_keeps_mechanism_witness :
  decoded Scenario.codec (Some Toy.challenge)
  = Some (TokResp (mkResp (Some NegState.accept_incomplete)
                          (Some (GSSMech.value GSSMech.ntlm))
                          (Some [Byte.x43]) None)) /\
  _mech_list (fst (step Scenario.codec Toy._mech (Some Toy.challenge)
                        (Runs.after_first Scenario.ntlm_only)))
  = [GSSMech.value GSSMech.ntlm].
Proof.
  split; [reflexivity|].
  rewrite (proj1 (reply_keeps_mechanism Scenario.ntlm_only Scenario.codec
                    Toy._mech (Some Toy.challenge) _
                    (Runs.after_first Scenario.ntlm_only) eq_refl)).
  reflexivity.
Defined.

(** X7, instance: a token the codec does not know. *)
Lemma undecodable_token_witness :
  unpack_neg_token Scenario.codec [Byte.xff] = Err (Foreign 4) /\
  step Scenario.codec Toy._mech (Some [Byte.xff])
       (Runs.after_first Scenario.ntlm_only)
  = (Runs.after_first Scenario.ntlm_only, Err (Foreign 4)).
Proof.
  split; [reflexivity|].
  apply (undecodable_token Scenario.ntlm_only Scenario.codec Toy._mech
           Byte.xff [] (Foreign 4) (Runs.after_first Scenario.ntlm_only)).
  reflexivity.
Defined.

(** X8, instance: a second rebuild on an initiator that has its candidate. *)
Lemma rebuild_appends_witness :
  _context_list (Runs.after_first Scenario.ntlm_only) <> [] /\
  _context (fst (_rebuild_context_list None None
                   (Runs.after_first Scenario.ntlm_only)))
  = Some (Toy.mkState 1 2 true).
Proof.
  split; [discriminate|].
  destruct (rebuild_appends Scenario.ntlm_only None None
              (Runs.after_first Scenario.ntlm_only)) as (added & _ & _ & H).
  rewrite H; [reflexivity|discriminate].
Defined.

(** X9, instance: the rebuild of the first call of an initiator, and a
    rebuild with a mechanism list. *)
Lemma rebuild_mech_list_witness :
  (snd (_rebuild_context_list None None (Scenario.start Scenario.ntlm_only))
   = Ok [GSSMech.value GSSMech.ntlm] /\
   exists added : list (Candidate Scenario.ntlm_only),
     _context_list (fst (_rebuild_context_list None None
                           (Scenario.start Scenario.ntlm_only)))
     = [] ++ added /\
     [GSSMech.value GSSMech.ntlm] = map GSSMech.value (mechs_of added)) /\
  (snd (_rebuild_context_list (Some [GSSMech.value GSSMech.ntlm]) None
          (Runs.after_first Scenario.ntlm_only))
   = Ok [GSSMech.value GSSMech.ntlm] /\
   exists added : list (Candidate Scenario.ntlm_only),
     _context_list (fst (_rebuild_context_list
                           (Some [GSSMech.value GSSMech.ntlm]) None
                           (Runs.after_first Scenario.ntlm_only)))
     = _context_list (Runs.after_first Scenario.ntlm_only) ++ added /\
     [GSSMech.value GSSMech.ntlm] = [GSSMech.value GSSMech.ntlm] /\
     (length added <= 1)%nat).
Proof.
  split; (split; [reflexivity|]).
  - apply (rebuild_mech_list Scenario.ntlm_only None None
             (Scenario.start Scenario.ntlm_only)
             [GSSMech.value GSSMech.ntlm] eq_refl).
  - apply (rebuild_mech_list Scenario.ntlm_only
             (Some [GSSMech.value GSSMech.ntlm]) None
             (Runs.after_first Scenario.ntlm_only)
             [GSSMech.value GSSMech.ntlm] eq_refl).
Defined.

(** X10, instance: the first rebuild of the NTLM-only initiator. *)
Lemma rebuild_without_gssapi_witness :
  gssapi_protocols Scenario.ntlm_only 0 = [] /\
  _rebuild_context_list None None (Scenario.start Scenario.ntlm_only)
  = (@set_context_list Scenario.ntlm_only
       [(GSSMech.ntlm, Toy.mkState 1 2 true, Some [Byte.x4e])]
       (Scenario.start Scenario.ntlm_only),
     Ok [GSSMech.value GSSMech.ntlm]).
Proof.
  split; [reflexivity|].
  rewrite (rebuild_without_gssapi Scenario.ntlm_only None
             (Scenario.start Scenario.ntlm_only) eq_refl).
  reflexivity.
Defined.

(** X11, instance: the flags of the acceptor over two further calls. *)
Lemma flags_never_reset_witness :
  _init_sent (Runs.after_offer Scenario.ntlm_only) = true /\
  _init_sent (fst (run Scenario.codec Toy._mech
                       [Some Toy.authenticate; Some Toy.rejection]
                       (Runs.after_offer Scenario.ntlm_only))) = true /\
  usage (args (fst (run Scenario.codec Toy._mech
                        [Some Toy.authenticate; Some Toy.rejection]
                        (Runs.after_offer Scenario.ntlm_only)))) = "accept".
Proof.
  destruct (flags_never_reset Scenario.ntlm_only Scenario.codec Toy._mech
              [Some Toy.authenticate; Some Toy.rejection]
              (Runs.after_offer Scenario.ntlm_only)) as (H1 & _ & _ & _ & H5).
  split; [reflexivity|]. split; [apply H1; reflexivity|].
  rewrite H5. reflexivity.
Defined.

(** X12, instance: the acceptor over three calls; the initiator once it
    has sent its MIC. *)
Lemma mic_emitted_at_most_once_witness :
  (count_mic (snd (run Scenario.codec Toy._mech
                       [Some Toy.offer; Some Toy.authenticate;
                        Some Toy.authenticate]
                       (__init__ Scenario.ntlm_only Toy.acceptor))) <= 1)%nat /\
  _mic_sent (after_challenge Scenario.ntlm_only) = true /\
  count_mic (snd (run Scenario.codec Toy._mech
                      [Some Toy.authenticate; None]
                      (after_challenge Scenario.ntlm_only))) = 0%nat.
Proof.
  split; [|split; [reflexivity|]].
  - apply (proj1 (mic_emitted_at_most_once Scenario.ntlm_only Scenario.codec
                    Toy._mech
                    [Some Toy.offer; Some Toy.authenticate;
                     Some Toy.authenticate]
                    (__init__ Scenario.ntlm_only Toy.acceptor))).
  - apply (proj2 (mic_emitted_at_most_once Scenario.ntlm_only Scenario.codec
                    Toy._mech [Some Toy.authenticate; None]
                    (after_challenge Scenario.ntlm_only))).
    reflexivity.
Defined.

(** The acceptor of that run does return a MIC, once. *)
Example acceptor_returns_one_mic :
  count_mic (snd (run Scenario.codec Toy._mech
                      [Some Toy.offer; Some Toy.authenticate;
                       Some Toy.authenticate]
                      (__init__ Scenario.ntlm_only Toy.acceptor))) = 1%nat.
Proof. reflexivity. Qed.

(** X13, instance: a MIC of one byte, which the mechanism refuses. *)
Lemma failed_verification_witness :
  _context_list (Runs.after_first Scenario.ntlm_only)
  = [(GSSMech.ntlm, Toy.mkState 1 2 true, None)] /\
  _step_spnego_mic Scenario.codec (Some [Byte.x00])
                   (Runs.after_first Scenario.ntlm_only)
  = (Runs.after_first Scenario.ntlm_only, Err (Foreign 3)).
Proof.
  split; [reflexivity|].
  rewrite (failed_verification Scenario.ntlm_only Scenario.codec Byte.x00 []
             (Runs.after_first Scenario.ntlm_only) GSSMech.ntlm
             (Toy.mkState 1 2 true) (Toy.mkState 1 2 true) None []
             (Foreign 3) eq_refl eq_refl).
  reflexivity.
Defined.

(** X14, instance: a further challenge to an initiator whose sub-context is
    complete. *)
Lemma complete_context_not_stepped_witness :
  active_complete (after_challenge (recording Scenario.two_legs)) = true /\
  exists evs : list Call,
    calls (fst (step Scenario.codec Toy._mech (Some Toy.challenge)
                     (after_challenge (recording Scenario.two_legs))))
    = calls (after_challenge (recording Scenario.two_legs)) ++ evs /\
    resets_follow evs = true.
Proof.
  split; [reflexivity|].
  apply (complete_context_not_stepped Scenario.two_legs Scenario.codec
           Toy._mech (Some Toy.challenge)
           (after_challenge (recording Scenario.two_legs))).
  reflexivity.
Defined.

(** X15, instance: the bit of the built-in NTLM with a protocol that does
    not exist. *)
Lemma use_flag_decides_witness :
  Z.land 8 (Auth.use_flags 1 2 4 8) <> 0%Z /\
  Auth._new_context Auth.ascii_lower 1 2 4 8
                    (fun _ => []) (fun _ => ["kerberos"]) 0 "DIGEST"
                    (Auth.PyInt 8) (Auth.PyStr "initiate")
  = Ok (Auth.mkCall Auth.NTLMProxy (Auth.PyStr "initiate") "digest"
                    (Auth.PyInt 8)).
Proof.
  split; [discriminate|].
  rewrite (use_flag_decides Auth.ascii_lower 1 2 4 8
             (fun _ => []) (fun _ => ["kerberos"]) 0 "DIGEST" 8
             (Auth.PyStr "initiate")); [reflexivity|discriminate].
Defined.

(** X16, instance: [NTLM] and [ntlm]. *)
Lemma protocol_case_insensitive_witness :
  Auth.ascii_lower "NTLM" = Auth.ascii_lower "ntlm" /\
  Auth._new_context Auth.ascii_lower 1 2 4 8
                    (fun _ => []) (fun _ => ["kerberos"]) 0 "NTLM"
                    (Auth.PyInt 0) (Auth.PyStr "initiate")
  = Ok (Auth.mkCall Auth.NTLMProxy (Auth.PyStr "initiate") "ntlm"
                    (Auth.PyInt 0)).
Proof.
  split; [reflexivity|].
  apply (proj2 (protocol_case_insensitive Auth.ascii_lower 1 2 4 8
                  (fun _ => []) (fun _ => ["kerberos"]) 0 "NTLM" "ntlm"
                  (Auth.PyInt 0) (Auth.PyStr "initiate") _ eq_refl)).
  reflexivity.
Defined.

(** X17, instance: kerberos where neither provider advertises it. *)
Lemma default_selection_witness :
  Z.land 16 (Auth.use_flags 1 2 4 8) = 0%Z /\
  Auth._new_context Auth.ascii_lower 1 2 4 8
                    (fun _ => []) (fun _ => []) 0 "Kerberos"
                    (Auth.PyInt 16) (Auth.PyStr "initiate")
  = Ok (Auth.mkCall Auth.GSSAPIProxy (Auth.PyStr "initiate") "kerberos"
                    (Auth.PyInt 16)).
Proof.
  split; [reflexivity|].
  apply (proj1 (proj2 (default_selection Auth.ascii_lower 1 2 4 8
                         (fun _ => []) (fun _ => []) 0 "Kerberos" 16
                         (Auth.PyStr "initiate") eq_refl))).
  - simpl. tauto.
  - left. reflexivity.
Defined.

(** X19. [client] and [server] hand [_new_context] the usage where it
    expects the options and the options where it expects the usage; the
    first thing [_new_context] does with its options is [options & use_flags],
    which is a [TypeError] for a string.  So every call of [client] or
    [server] raises [TypeError], whatever the protocol and the options, and
    no context is created. *)
Theorem client_server_type_error (lower : string -> string)
    (use_sspi use_gssapi use_negotiate use_ntlm : Z)
    (sspi gssapi : Z -> list string)
    (context_req : Z) (protocol : string) (options : Z) :
  (forall (o : string) (usage : Auth.pyval),
      Auth._new_context lower use_sspi use_gssapi use_negotiate use_ntlm
                        sspi gssapi context_req protocol (Auth.PyStr o) usage
      = Err TypeError) /\
  Auth.client lower use_sspi use_gssapi use_negotiate use_ntlm sspi gssapi
              context_req protocol options = Err TypeError /\
  Auth.server lower use_sspi use_gssapi use_negotiate use_ntlm sspi gssapi
              context_req protocol options = Err TypeError.
Proof.
  assert (H : forall (o : string) (usage : Auth.pyval),
             Auth._new_context lower use_sspi use_gssapi use_negotiate use_ntlm
                               sspi gssapi context_req protocol
                               (Auth.PyStr o) usage
             = Err TypeError) by reflexivity.
  split; [exact H|]. split; apply H.
Qed.

(** * The built-in NTLM in a rebuild *)

Section Fallback.

Variable B : Backend.




End Fallback.




(** The built-in negotiate class through [_new_context]: selected for the
    protocol [negotiate] when no provider advertises it, and by the bit
    [use_negotiate]; the call raises [TypeError] both times. *)
Example builtin_negotiate_call_raises :
  Auth._new_context Auth.ascii_lower 1 2 4 8 (fun _ => []) (fun _ => []) 0
                    "negotiate" (Auth.PyInt 0) (Auth.PyStr "initiate")
  = Err TypeError /\
  Auth._new_context Auth.ascii_lower 1 2 4 8 (fun _ => []) (fun _ => []) 0
                    "ntlm" (Auth.PyInt 4) (Auth.PyStr "initiate")
  = Err TypeError.
Proof. split; reflexivity. Qed.
